(** * Keccak-256 sponge (package keccak): one-shot and streaming hashing

    A shallow embedding of [keccak.go]: the byte-level absorption routine
    [xorIn] with its little-endian 64-bit fast path, the one-shot [Sum256],
    and the streaming [Hasher] with [Reset], [Write] and [Sum256].

    Conventions of the embedding.
    - A Go [byte] is a [Byte.byte]; [[200]byte], [[rate]byte] and [[]byte]
      are [list byte] (the array lengths are carried as hypotheses where a
      proof needs them).
    - A Go [int] is a [Z]; no value in this program comes near 2^63.
    - A [uint64] is a [Z] in [0, 2^64).
    - A run-time panic (index or slice bound out of range) is [None].
    - The unsafe pointer cast of the state to an array of 25 uint64 is read
      on a little-endian host (the amd64 and arm64 builds of the package):
      lane [i] is the little-endian value of bytes [8i .. 8i+7]. *)

From Stdlib Require Import ZArith List Lia Bool Btauto.
From Stdlib Require String Ascii.
Import String.StringSyntax.
Delimit Scope string_scope with string.
From coqutil Require Import Byte Word.LittleEndianList Z.bitblast.
Import ListNotations.
Local Open Scope Z_scope.

(** ** Panics as an error monad *)

Notation "x <- e ;; k" :=
  (match e with Some x => k | None => None end)
  (at level 61, e at next level, right associativity).

Notation "' ( x , y ) <- e ;; k" :=
  (match e with Some (x, y) => k | None => None end)
  (at level 61, x name, y name, e at next level, right associativity).

(** ** Go slices, arrays and counted loops *)

Module Go.

Definition len {A} (l : list A) : Z := Z.of_nat (length l).

Definition in_range (i n : Z) : bool := (0 <=? i) && (i <? n).

(** [l[i]] *)
Definition index (l : list byte) (i : Z) : option byte :=
  if in_range i (len l) then nth_error l (Z.to_nat i) else None.

(** [l[i] = b] *)
Definition store (l : list byte) (i : Z) (b : byte) : option (list byte) :=
  if in_range i (len l)
  then Some (firstn (Z.to_nat i) l ++ b :: skipn (Z.to_nat (i + 1)) l)
  else None.

(** [l[i] ^= b] *)
Definition xor_at (l : list byte) (i : Z) (b : byte) : option (list byte) :=
  x <- index l i ;; store l i (byte.xor x b).

(** [l[lo:hi]] *)
Definition slice (l : list byte) (lo hi : Z) : option (list byte) :=
  if (0 <=? lo) && (lo <=? hi) && (hi <=? len l)
  then Some (firstn (Z.to_nat (hi - lo)) (skipn (Z.to_nat lo) l))
  else None.

(** [n := copy(arr[lo:hi], src)]: the array after the copy, and [n]. *)
Definition copy_at (arr : list byte) (lo hi : Z) (src : list byte)
  : option (list byte * Z) :=
  dst <- slice arr lo hi ;;
  let n := Z.min (len dst) (len src) in
  Some (firstn (Z.to_nat lo) arr ++ firstn (Z.to_nat n) src
          ++ skipn (Z.to_nat (lo + n)) arr, n).

(** [for i := lo; i < hi; i++ { s = body i s }], run for [k] rounds from [i]. *)
Fixpoint for_range {S} (k : nat) (i : Z) (body : Z -> S -> option S) (s : S)
  : option S :=
  match k with
  | O => Some s
  | S k' => s' <- body i s ;; for_range k' (i + 1) body s'
  end.

Definition for_loop {S} (lo hi : Z) (body : Z -> S -> option S) (s : S)
  : option S :=
  for_range (Z.to_nat (hi - lo)) lo body s.

End Go.

(** ** Constants *)

(** [rate]: the sponge rate of Keccak-256, (1600 - 2*256) / 8 bytes. *)
Definition rate : Z := 136.

Definition x01 : byte := Byte.x01.
Definition x80 : byte := Byte.x80.
Definition x81 : byte := Byte.x81.

(** [var state [200]byte] *)
Definition zero_state : list byte := repeat Byte.x00 200.

(** ** le64 and xorIn *)

Definition u64 (b : byte) : Z := byte.unsigned b.

(** [le64]: a little-endian uint64 from at least 8 bytes; [_ = b[7]] panics
    on a shorter slice. *)
Definition le64 (b : list byte) : option Z :=
  match b with
  | b0 :: b1 :: b2 :: b3 :: b4 :: b5 :: b6 :: b7 :: _ =>
      Some (Z.lor (Z.lor (Z.lor (Z.lor (Z.lor (Z.lor (Z.lor
              (u64 b0)
              (Z.shiftl (u64 b1) 8))
              (Z.shiftl (u64 b2) 16))
              (Z.shiftl (u64 b3) 24))
              (Z.shiftl (u64 b4) 32))
              (Z.shiftl (u64 b5) 40))
              (Z.shiftl (u64 b6) 48))
              (Z.shiftl (u64 b7) 56))
  | _ => None
  end.

(** [stateU64[i]], read through the 25-lane uint64 view of the state. *)
Definition lane_load (state : list byte) (i : Z) : option Z :=
  if Go.in_range i 25
  then b <- Go.slice state (8 * i) (8 * i + 8) ;; Some (le_combine b)
  else None.

(** [stateU64[i] = w], written through the same view. *)
Definition lane_store (state : list byte) (i : Z) (w : Z) : option (list byte) :=
  if Go.in_range i 25 && (8 * i + 8 <=? Go.len state)
  then Some (firstn (Z.to_nat (8 * i)) state ++ le_split 8 w
               ++ skipn (Z.to_nat (8 * i + 8)) state)
  else None.

(** Body of the first loop of [xorIn]: [stateU64[i] ^= le64(data[8*i:])]. *)
Definition xorIn_lane (data : list byte) (i : Z) (state : list byte)
  : option (list byte) :=
  d <- Go.slice data (8 * i) (Go.len data) ;;
  w <- le64 d ;;
  s <- lane_load state i ;;
  lane_store state i (Z.lxor s w).

(** Body of the second loop of [xorIn]: [state[i] ^= data[i]]. *)
Definition xorIn_byte (data : list byte) (i : Z) (state : list byte)
  : option (list byte) :=
  d <- Go.index data i ;;
  Go.xor_at state i d.

(** [xorIn] XORs [data] into the beginning of [state]. *)
Definition xorIn (state data : list byte) : option (list byte) :=
  let n := Z.shiftr (Go.len data) 3 in
  state <- Go.for_loop 0 n (xorIn_lane data) state ;;
  Go.for_loop (Z.shiftl n 3) (Go.len data) (xorIn_byte data) state.

(** ** The permutation

    [keccakF1600] is declared in the package ([func keccakF1600(a *[200]byte)])
    and implemented in assembly or by a generic fallback chosen per platform.
    The sponge code is written against that signature only: an in-place
    transform of a 200-byte array. *)

Class PermutationCore := {
  keccakF1600 : list byte -> list byte;
  keccakF1600_length :
    forall a, length a = 200%nat -> length (keccakF1600 a) = 200%nat
}.

(** ** Sum256 (one-shot) *)

Section Sponge.

Context {P : PermutationCore}.

(** The absorb loop, as it appears in [Sum256] and again in [Hasher.Write]:
    [for len(data) >= rate { xorIn(&state, data[:rate]); keccakF1600(&state);
    data = data[rate:] }].  Returns the state and the unconsumed data.
    [fuel] bounds the number of rounds; [length data] always suffices. *)
Fixpoint absorb_blocks (fuel : nat) (state data : list byte)
  : option (list byte * list byte) :=
  if rate <=? Go.len data then
    match fuel with
    | O => None
    | S fuel' =>
        blk <- Go.slice data 0 rate ;;
        state <- xorIn state blk ;;
        let state := keccakF1600 state in
        data <- Go.slice data rate (Go.len data) ;;
        absorb_blocks fuel' state data
    end
  else Some (state, data).

(** [state[len(data)] ^= 0x01; state[rate-1] ^= 0x80], the two padding
    statements shared by [Sum256] and [Hasher.Sum256]. *)
Definition pad (state : list byte) (pos : Z) : option (list byte) :=
  state <- Go.xor_at state pos x01 ;;
  Go.xor_at state (rate - 1) x80.

Definition Sum256 (data : list byte) : option (list byte) :=
  let state := zero_state in
  '(state, data) <- absorb_blocks (length data) state data ;;
  state <- xorIn state data ;;
  state <- pad state (Go.len data) ;;
  let state := keccakF1600 state in
  Go.slice state 0 32.

End Sponge.

(** ** Hasher (streaming) *)

Module Hasher.

Record t := mk {
  state : list byte;   (* [200]byte *)
  buf : list byte;     (* [rate]byte *)
  absorbed : Z         (* int *)
}.

Definition set_state (h : t) (s : list byte) : t :=
  {| state := s; buf := buf h; absorbed := absorbed h |}.
Definition set_buf (h : t) (b : list byte) : t :=
  {| state := state h; buf := b; absorbed := absorbed h |}.
Definition set_absorbed (h : t) (a : Z) : t :=
  {| state := state h; buf := buf h; absorbed := a |}.

(** [var h Hasher]: the zero value, which is the freshly constructed hasher. *)
Definition zero : t :=
  {| state := zero_state; buf := repeat Byte.x00 136; absorbed := 0 |}.

(** The lengths fixed by the array types of the struct. *)
Definition well_typed (h : t) : Prop :=
  length (state h) = 200%nat /\ length (buf h) = 136%nat.

(** The invariant on [absorbed] (PendingCount). *)
Definition pending_ok (h : t) : Prop := 0 <= absorbed h < rate.

(** The pending bytes, [h.buf[:h.absorbed]]. *)
Definition pending (h : t) : list byte :=
  firstn (Z.to_nat (absorbed h)) (buf h).

(** Two hashers that agree on the state and on the pending bytes. *)
Definition similar (h1 h2 : t) : Prop :=
  well_typed h1 /\ pending_ok h1 /\ well_typed h2 /\ pending_ok h2
  /\ state h1 = state h2 /\ pending h1 = pending h2.

Section Methods.

Context {P : PermutationCore}.

Definition Reset (h : t) : t :=
  let h := set_state h zero_state in
  set_absorbed h 0.

(** [Write], first block: [if h.absorbed > 0 { ... }] tops the pending buffer
    up from [p] and absorbs it once it is full.  Returns the hasher and the
    rest of [p]. *)
Definition Write_topup (h : t) (p : list byte) : option (t * list byte) :=
  if 0 <? absorbed h then
    '(b, n) <- Go.copy_at (buf h) (absorbed h) rate p ;;
    let h := set_buf h b in
    let h := set_absorbed h (absorbed h + n) in
    p <- Go.slice p n (Go.len p) ;;
    if absorbed h =? rate then
      b <- Go.slice (buf h) 0 (Go.len (buf h)) ;;
      s <- xorIn (state h) b ;;
      let h := set_state h s in
      let h := set_state h (keccakF1600 (state h)) in
      let h := set_absorbed h 0 in
      Some (h, p)
    else Some (h, p)
  else Some (h, p).

(** [Write], second block: [for len(p) >= rate { ... }] absorbs whole blocks
    straight from [p]. *)
Definition Write_blocks (h : t) (p : list byte) : option (t * list byte) :=
  '(s, p) <- absorb_blocks (length p) (state h) p ;;
  Some (set_state h s, p).

(** [Write], third block: [if len(p) > 0 { h.absorbed = copy(h.buf[:], p) }]. *)
Definition Write_leftover (h : t) (p : list byte) : option t :=
  if 0 <? Go.len p then
    '(b, n) <- Go.copy_at (buf h) 0 (Go.len (buf h)) p ;;
    let h := set_buf h b in
    Some (set_absorbed h n)
  else Some h.

Definition Write (h : t) (p : list byte) : option t :=
  '(h, p) <- Write_topup h p ;;
  '(h, p) <- Write_blocks h p ;;
  Write_leftover h p.

(** [Sum256] has a pointer receiver; the hasher it leaves behind is returned
    next to the digest. *)
Definition Sum256 (h : t) : option (list byte * t) :=
  let state := state h in
  b <- Go.slice (buf h) 0 (absorbed h) ;;
  state <- xorIn state b ;;
  state <- pad state (absorbed h) ;;
  let state := keccakF1600 state in
  d <- Go.slice state 0 32 ;;
  Some (d, h).

(** A client of the hasher: a sequence of method calls, and the digests the
    [Sum256] calls return, in order. *)
Inductive call :=
| CallWrite (p : list byte)
| CallSum256
| CallReset.

Fixpoint run (h : t) (cs : list call) : option (list (list byte) * t) :=
  match cs with
  | [] => Some ([], h)
  | CallWrite p :: cs => h <- Write h p ;; run h cs
  | CallSum256 :: cs =>
      '(d, h) <- Sum256 h ;;
      '(ds, h) <- run h cs ;;
      Some (d :: ds, h)
  | CallReset :: cs => run (Reset h) cs
  end.

(** [h.Write(c)] for each chunk [c] in turn. *)
Fixpoint write_all (h : t) (chunks : list (list byte)) : option t :=
  match chunks with
  | [] => Some h
  | c :: chunks => h <- Write h c ;; write_all h chunks
  end.

(** The hashers a client of the package can hold. *)
Inductive reachable : t -> Prop :=
| reach_zero : reachable zero
| reach_Reset h : reachable h -> reachable (Reset h)
| reach_Write h p h' : reachable h -> Write h p = Some h' -> reachable h'
| reach_Sum256 h d h' : reachable h -> Sum256 h = Some (d, h') -> reachable h'.

End Methods.

End Hasher.

(** ** The algorithm in the words of the specification

    Section 4.2 of the specification: a 200-byte state of zeros; while at
    least Rate bytes remain, XOR the next Rate bytes into the state byte for
    byte and permute; XOR the tail in; XOR 0x01 at [len(tail)] and 0x80 at
    [Rate-1]; permute; the digest is the first 32 bytes. *)

Module Spec.

(** Byte-for-byte XOR of [block] into the beginning of [state]; the state
    bytes past the block are untouched. *)
Fixpoint xor_bytes (state block : list byte) : list byte :=
  match state, block with
  | s :: state', b :: block' => byte.xor s b :: xor_bytes state' block'
  | _, [] => state
  | [], _ :: _ => []
  end.

(** XOR [b] into [state[i]]. *)
Fixpoint xor_byte (state : list byte) (i : nat) (b : byte) : list byte :=
  match state, i with
  | [], _ => []
  | s :: state', O => byte.xor s b :: state'
  | s :: state', S i' => s :: xor_byte state' i' b
  end.

Section WithPermutation.

Context {P : PermutationCore}.

Fixpoint absorb (fuel : nat) (state data : list byte)
  : list byte * list byte :=
  match fuel with
  | O => (state, data)
  | S fuel' =>
      if (136 <=? length data)%nat
      then absorb fuel' (keccakF1600 (xor_bytes state (firstn 136 data)))
                  (skipn 136 data)
      else (state, data)
  end.

(** Steps 2 to 5: tail, padding, last permutation, squeeze. *)
Definition finish (state tail : list byte) : list byte :=
  let state := xor_bytes state tail in
  let state := xor_byte state (length tail) Byte.x01 in
  let state := xor_byte state 135 Byte.x80 in
  firstn 32 (keccakF1600 state).

Definition hash (data : list byte) : list byte :=
  let '(state, tail) := absorb (length data) (repeat Byte.x00 200) data in
  finish state tail.

End WithPermutation.

End Spec.

(** ** Keccak-f[1600]

    Modelled from the spec: the body of [keccakF1600] is not among the
    sources (only its declaration is; the implementations are assembly and a
    generic fallback).  Section 6 of the specification fixes it as the
    standard Keccak-f[1600] round function, 24 rounds on a 1600-bit state of
    25 little-endian 64-bit lanes, bit-exact for every variant.  The rounds
    below are the standard ones: theta, rho, pi, chi, iota. *)

Module KeccakF.

Definition mask64 : Z := Z.ones 64.

(** Rotate a 64-bit lane left by [n] bits, [0 <= n < 64]. *)
Definition rotl (w n : Z) : Z :=
  Z.lor (Z.land (Z.shiftl w n) mask64) (Z.shiftr w (64 - n)).

Definition lane (A : list Z) (x y : nat) : Z := nth (x mod 5 + 5 * y) A 0.

Definition lanes (f : nat -> nat -> Z) : list Z :=
  map (fun i => f (i mod 5)%nat (i / 5)%nat) (seq 0 25).

(** Rotation offsets, indexed by [x + 5y]. *)
Definition rotc : list Z :=
  [ 0;  1; 62; 28; 27;
   36; 44;  6; 55; 20;
    3; 10; 43; 25; 39;
   41; 45; 15; 21;  8;
   18;  2; 61; 56; 14].

(** Round constants. *)
Definition rc : list Z :=
  [0x0000000000000001; 0x0000000000008082; 0x800000000000808A;
   0x8000000080008000; 0x000000000000808B; 0x0000000080000001;
   0x8000000080008081; 0x8000000000008009; 0x000000000000008A;
   0x0000000000000088; 0x0000000080008009; 0x000000008000000A;
   0x000000008000808B; 0x800000000000008B; 0x8000000000008089;
   0x8000000000008003; 0x8000000000008002; 0x8000000000000080;
   0x000000000000800A; 0x800000008000000A; 0x8000000080008081;
   0x8000000000008080; 0x0000000080000001; 0x8000000080008008].

Definition theta (A : list Z) : list Z :=
  let C x := Z.lxor (Z.lxor (Z.lxor (Z.lxor
               (lane A x 0) (lane A x 1)) (lane A x 2)) (lane A x 3)) (lane A x 4) in
  let D x := Z.lxor (C ((x + 4) mod 5)%nat) (rotl (C ((x + 1) mod 5)%nat) 1) in
  lanes (fun x y => Z.lxor (lane A x y) (D x)).

(** rho and pi: [B[y, 2x+3y] = rotl(A[x, y], r[x, y])], read at the
    destination [(X, Y)], whose source is [x = X + 3Y, y = X]. *)
Definition rho_pi (A : list Z) : list Z :=
  lanes (fun X Y =>
           let x := ((X + 3 * Y) mod 5)%nat in
           rotl (lane A x X) (nth (x + 5 * X) rotc 0)).

(** chi: [A[x, y] = B[x, y] xor (not B[x+1, y] and B[x+2, y])]. *)
Definition chi (B : list Z) : list Z :=
  lanes (fun x y =>
           Z.lxor (lane B x y) (Z.ldiff (lane B (x + 2) y) (lane B (x + 1) y))).

Definition iota (k : Z) (A : list Z) : list Z :=
  match A with
  | a :: A' => Z.lxor a k :: A'
  | [] => []
  end.

Definition round (A : list Z) (k : Z) : list Z :=
  iota k (chi (rho_pi (theta A))).

Definition lanes_of_bytes (a : list byte) : list Z :=
  map (fun i => le_combine (firstn 8 (skipn (8 * i) a))) (seq 0 25).

Definition bytes_of_lanes (A : list Z) : list byte :=
  concat (map (fun i => le_split 8 (nth i A 0)) (seq 0 25)).

(** Modelled from the spec: [keccakF1600], the standard permutation: the 24
    rounds, on the little-endian lanes of the byte state. *)
Definition permute (a : list byte) : list byte :=
  bytes_of_lanes (fold_left round rc (lanes_of_bytes a)).

End KeccakF.

(** Modelled from the spec: [keccakF1600] as the standard Keccak-f[1600],
    [KeccakF.permute]; its result has 200 bytes by construction. *)
#[export] Instance Keccak_f_1600 : PermutationCore.
Proof.
  refine {| keccakF1600 := KeccakF.permute |}.
  intros a _. reflexivity.
Defined.

(** Test vectors of the package's tests: the ASCII bytes of hello, and the
    two reference digests. *)
Definition hello : list byte :=
  [Byte.x68; Byte.x65; Byte.x6c; Byte.x6c; Byte.x6f].

(** Lower-case hexadecimal, as the tests write digests. *)
Definition hex_digit (n : Z) : Ascii.ascii :=
  nth (Z.to_nat n) (String.list_ascii_of_string "0123456789abcdef"%string)
      Ascii.zero.

Fixpoint hex (l : list byte) : String.string :=
  match l with
  | [] => String.EmptyString
  | b :: l =>
      String.String (hex_digit (byte.unsigned b / 16))
        (String.String (hex_digit (byte.unsigned b mod 16)) (hex l))
  end.

(** Data of the package's tests: [n] bytes, byte [i] being [f i] modulo 256,
    and a byte sequence cut into chunks of [k] bytes (the last one shorter). *)
Definition test_data (n : nat) (f : Z -> Z) : list byte :=
  map (fun i => byte.of_Z (f (Z.of_nat i))) (seq 0 n).

Fixpoint chunks_of (fuel k : nat) (data : list byte) : list (list byte) :=
  match fuel, data with
  | O, _ | _, [] => []
  | S fuel', _ => firstn k data :: chunks_of fuel' k (skipn k data)
  end.

(** The hasher after [Write] of the bytes of hello on a fresh hasher. *)
Definition hasher_hello : Hasher.t :=
  {| Hasher.state := zero_state;
     Hasher.buf := hello ++ repeat Byte.x00 131;
     Hasher.absorbed := 5 |}.

Definition digest_empty : list byte :=
  [Byte.xc5; Byte.xd2; Byte.x46; Byte.x01; Byte.x86; Byte.xf7; Byte.x23; Byte.x3c;
   Byte.x92; Byte.x7e; Byte.x7d; Byte.xb2; Byte.xdc; Byte.xc7; Byte.x03; Byte.xc0;
   Byte.xe5; Byte.x00; Byte.xb6; Byte.x53; Byte.xca; Byte.x82; Byte.x27; Byte.x3b;
   Byte.x7b; Byte.xfa; Byte.xd8; Byte.x04; Byte.x5d; Byte.x85; Byte.xa4; Byte.x70].

Definition digest_hello : list byte :=
  [Byte.x1c; Byte.x8a; Byte.xff; Byte.x95; Byte.x06; Byte.x85; Byte.xc2; Byte.xed;
   Byte.x4b; Byte.xc3; Byte.x17; Byte.x4f; Byte.x34; Byte.x72; Byte.x28; Byte.x7b;
   Byte.x56; Byte.xd9; Byte.x51; Byte.x7b; Byte.x9c; Byte.x94; Byte.x81; Byte.x27;
   Byte.x31; Byte.x9a; Byte.x09; Byte.xa7; Byte.xa3; Byte.x6d; Byte.xea; Byte.xc8].

(** ** keccakf_arm64.go: the choice of the permutation routine

    [useSHA3] is a package variable set once ([runtime.GOOS == "darwin"]);
    [keccakF1600NEON] is assembly and [keccakF1600Generic] the fallback.
    Both are taken as they are declared: in-place transforms of a 200-byte
    array. *)
Definition keccakF1600_arm64 (useSHA3 : bool)
    (keccakF1600NEON keccakF1600Generic : list byte -> list byte)
    (a : list byte) : list byte :=
  if useSHA3 then keccakF1600NEON a else keccakF1600Generic a.

Definition arm64_core (useSHA3 : bool) (NEON Generic : PermutationCore)
  : PermutationCore.
Proof.
  refine {| keccakF1600 :=
              keccakF1600_arm64 useSHA3 (@keccakF1600 NEON)
                                (@keccakF1600 Generic) |}.
  intros a H. destruct useSHA3; apply keccakF1600_length; exact H.
Defined.

(** ** What a client has written

    [streams acc cs]: for each [Sum256] call in [cs], the bytes written since
    the last [Reset] (or since [acc], the bytes written before [cs]). *)
Fixpoint streams (acc : list byte) (cs : list Hasher.call)
  : list (list byte) :=
  match cs with
  | [] => []
  | Hasher.CallWrite p :: cs => streams (acc ++ p) cs
  | Hasher.CallSum256 :: cs => acc :: streams acc cs
  | Hasher.CallReset :: cs => streams [] cs
  end.

(** The hasher calls of the fuzz target [FuzzSum256] on [data]:
    [h.Write(data); h.Sum256(); h.Reset();] one [h.Write] per byte;
    [h.Sum256()]. *)
Definition fuzz_calls (data : list byte) : list Hasher.call :=
  [Hasher.CallWrite data; Hasher.CallSum256; Hasher.CallReset]
    ++ map (fun b => Hasher.CallWrite [b]) data
    ++ [Hasher.CallSum256].

(** * Proofs *)

(** Bitwise equations on [Z]: compare bit by bit; bits at negative
    positions are zero. *)
Ltac bits :=
  Z.bitblast; subst;
  repeat match goal with
         | |- context [Z.testbit ?x ?i] => rewrite (Z.testbit_neg_r x i) by lia
         end;
  try Z.bitblast_core; try (cbn; btauto).

(** ** Lists, slices and loops *)

Lemma firstn_app_exact {A} (a b : list A) n :
  n = length a -> firstn n (a ++ b) = a.
Proof.
  intros ->. rewrite firstn_app, Nat.sub_diag, firstn_all. cbn [firstn].
  apply app_nil_r.
Qed.

Lemma skipn_app_exact {A} (a b : list A) n :
  n = length a -> skipn n (a ++ b) = b.
Proof.
  intros ->. rewrite skipn_app, Nat.sub_diag, skipn_all. reflexivity.
Qed.

Lemma len_app {A} (a b : list A) : Go.len (a ++ b) = Go.len a + Go.len b.
Proof. unfold Go.len. rewrite length_app. lia. Qed.

Lemma len_nonneg {A} (a : list A) : 0 <= Go.len a.
Proof. unfold Go.len. lia. Qed.

Lemma slice_mid (a b c : list byte) lo hi :
  lo = Go.len a -> hi = Go.len a + Go.len b ->
  Go.slice (a ++ b ++ c) lo hi = Some b.
Proof.
  intros -> ->. unfold Go.slice. rewrite !len_app.
  pose proof (len_nonneg a). pose proof (len_nonneg b). pose proof (len_nonneg c).
  replace ((0 <=? Go.len a) && (Go.len a <=? Go.len a + Go.len b)
           && (Go.len a + Go.len b <=? Go.len a + (Go.len b + Go.len c)))
    with true by (symmetry; rewrite !andb_true_iff, !Z.leb_le; lia).
  f_equal. rewrite skipn_app_exact by (unfold Go.len; lia).
  apply firstn_app_exact. unfold Go.len. lia.
Qed.

Lemma slice_suffix (a b : list byte) lo hi :
  lo = Go.len a -> hi = Go.len (a ++ b) -> Go.slice (a ++ b) lo hi = Some b.
Proof.
  intros Hlo Hhi. rewrite <- (app_nil_r b) at 1.
  rewrite slice_mid with (a := a) (b := b) (c := []); auto.
  rewrite Hhi, len_app. reflexivity.
Qed.

Lemma slice_prefix (a b : list byte) hi :
  hi = Go.len a -> Go.slice (a ++ b) 0 hi = Some a.
Proof.
  intros ->. apply (slice_mid [] a b); reflexivity.
Qed.

Lemma slice_all (a : list byte) hi : hi = Go.len a -> Go.slice a 0 hi = Some a.
Proof.
  intros ->. rewrite <- (app_nil_r a) at 1. apply slice_prefix. reflexivity.
Qed.

Lemma slice_firstn (l : list byte) hi :
  0 <= hi <= Go.len l -> Go.slice l 0 hi = Some (firstn (Z.to_nat hi) l).
Proof.
  intros H. rewrite <- (firstn_skipn (Z.to_nat hi) l) at 1.
  apply slice_prefix. unfold Go.len in *. rewrite length_firstn. lia.
Qed.

Lemma slice_skipn (l : list byte) lo hi :
  0 <= lo <= Go.len l -> hi = Go.len l ->
  Go.slice l lo hi = Some (skipn (Z.to_nat lo) l).
Proof.
  intros H ->. rewrite <- (firstn_skipn (Z.to_nat lo) l) at 1 2.
  apply slice_suffix; [|reflexivity]. unfold Go.len in *.
  rewrite length_firstn. lia.
Qed.

Lemma index_app (a : list byte) x (c : list byte) i :
  i = Go.len a -> Go.index (a ++ x :: c) i = Some x.
Proof.
  intros ->. unfold Go.index, Go.in_range. rewrite len_app.
  pose proof (len_nonneg a). pose proof (len_nonneg (x :: c)).
  assert (0 < Go.len (x :: c)) by (unfold Go.len; cbn [length]; lia).
  replace ((0 <=? Go.len a) && (Go.len a <? Go.len a + Go.len (x :: c)))
    with true by (symmetry; rewrite andb_true_iff, Z.leb_le, Z.ltb_lt; lia).
  unfold Go.len. rewrite Nat2Z.id, nth_error_app2, Nat.sub_diag by lia.
  reflexivity.
Qed.

Lemma store_app (a : list byte) x (c : list byte) i y :
  i = Go.len a -> Go.store (a ++ x :: c) i y = Some (a ++ y :: c).
Proof.
  intros ->. unfold Go.store, Go.in_range. rewrite len_app.
  pose proof (len_nonneg a).
  assert (0 < Go.len (x :: c)) by (unfold Go.len; cbn [length]; lia).
  replace ((0 <=? Go.len a) && (Go.len a <? Go.len a + Go.len (x :: c)))
    with true by (symmetry; rewrite andb_true_iff, Z.leb_le, Z.ltb_lt; lia).
  f_equal. rewrite firstn_app_exact by (unfold Go.len; lia). f_equal.
  change (a ++ x :: c) with (a ++ [x] ++ c). rewrite app_assoc.
  rewrite skipn_app_exact; [reflexivity|].
  rewrite length_app. cbn [length]. unfold Go.len. lia.
Qed.

Lemma xor_at_app (a : list byte) x (c : list byte) i y :
  i = Go.len a -> Go.xor_at (a ++ x :: c) i y = Some (a ++ byte.xor x y :: c).
Proof.
  intros H. unfold Go.xor_at. rewrite index_app by exact H.
  apply store_app. exact H.
Qed.

(** ** Byte-for-byte XOR *)

Lemma xor_bytes_length st d : length (Spec.xor_bytes st d) = length st.
Proof.
  revert d. induction st as [|s st IH]; intros [|b d]; cbn; auto.
Qed.

Lemma xor_bytes_nil_r st : Spec.xor_bytes st [] = st.
Proof. destruct st; reflexivity. Qed.

Lemma xor_bytes_app s1 s2 d1 d2 :
  length s1 = length d1 ->
  Spec.xor_bytes (s1 ++ s2) (d1 ++ d2) =
  Spec.xor_bytes s1 d1 ++ Spec.xor_bytes s2 d2.
Proof.
  revert d1. induction s1 as [|s s1 IH]; intros [|d d1] H; try discriminate.
  - reflexivity.
  - cbn. f_equal. apply IH. cbn in H. lia.
Qed.

Lemma xor_bytes_short s1 s2 d :
  length s1 = length d ->
  Spec.xor_bytes (s1 ++ s2) d = Spec.xor_bytes s1 d ++ s2.
Proof.
  intros H. rewrite <- (app_nil_r d) at 1.
  rewrite xor_bytes_app, xor_bytes_nil_r; auto.
Qed.

Lemma xor_bytes_nth st d (i : nat) x y :
  nth_error st i = Some x -> nth_error d i = Some y ->
  nth_error (Spec.xor_bytes st d) i = Some (byte.xor x y).
Proof.
  revert d i. induction st as [|s st IH]; intros [|b d] [|i]; cbn;
    try discriminate; try congruence.
  apply IH.
Qed.

Lemma xor_bytes_nth_high st d (i : nat) :
  (length d <= i)%nat ->
  nth_error (Spec.xor_bytes st d) i = nth_error st i.
Proof.
  revert d i. induction st as [|s st IH]; intros [|b d] [|i]; cbn;
    try reflexivity; try lia.
  intros H. apply IH. lia.
Qed.

Lemma xor_byte_app (a : list byte) x c (i : nat) b :
  i = length a -> Spec.xor_byte (a ++ x :: c) i b = a ++ byte.xor x b :: c.
Proof.
  intros ->. induction a as [|y a IH]; cbn; [reflexivity|]. f_equal. exact IH.
Qed.

Lemma xor_byte_length st i b : length (Spec.xor_byte st i b) = length st.
Proof.
  revert i. induction st as [|s st IH]; intros [|i]; cbn; auto.
Qed.

(** ** Little-endian lanes *)

Lemma le_combine_cons h t :
  le_combine (h :: t) = Z.lor (byte.unsigned h) (Z.shiftl (le_combine t) 8).
Proof. reflexivity. Qed.

Lemma le_split_S n w :
  le_split (S n) w = byte.of_Z w :: le_split n (Z.shiftr w 8).
Proof. reflexivity. Qed.

Lemma byte_xor_low (a b : byte) (A B : Z) :
  byte.of_Z (Z.lxor (Z.lor (byte.unsigned a) (Z.shiftl A 8))
                    (Z.lor (byte.unsigned b) (Z.shiftl B 8)))
  = byte.xor a b.
Proof.
  apply byte.unsigned_inj. unfold byte.xor.
  rewrite !byte.unsigned_of_Z. unfold byte.wrap.
  rewrite <- !Z.land_ones by lia.
  bits.
Qed.

Lemma lxor_shift_high (a b : byte) (A B : Z) :
  Z.shiftr (Z.lxor (Z.lor (byte.unsigned a) (Z.shiftl A 8))
                   (Z.lor (byte.unsigned b) (Z.shiftl B 8))) 8
  = Z.lxor A B.
Proof.
  rewrite <- (byte.wrap_unsigned a), <- (byte.wrap_unsigned b).
  unfold byte.wrap. rewrite <- !Z.land_ones by lia.
  bits.
Qed.

(** XOR of two lanes is the byte-for-byte XOR of their little-endian bytes. *)
Lemma le_split_lxor (a b : list byte) :
  length a = length b ->
  le_split (length a) (Z.lxor (le_combine a) (le_combine b))
  = Spec.xor_bytes a b.
Proof.
  revert b. induction a as [|x a IH]; intros [|y b] H; try discriminate.
  - reflexivity.
  - cbn [length Spec.xor_bytes].
    rewrite le_split_S, !le_combine_cons, byte_xor_low, lxor_shift_high.
    f_equal. apply IH. cbn in H. lia.
Qed.

Lemma length_8 (l : list byte) :
  length l = 8%nat ->
  exists b0 b1 b2 b3 b4 b5 b6 b7, l = [b0; b1; b2; b3; b4; b5; b6; b7].
Proof.
  intros H.
  do 8 (destruct l as [|? l]; [discriminate|]).
  destruct l; [|discriminate]. repeat eexists.
Qed.

(** [le64] reads the little-endian value of the first eight bytes. *)
Lemma le64_app (d r : list byte) :
  length d = 8%nat -> le64 (d ++ r) = Some (le_combine d).
Proof.
  intros H. destruct (length_8 d H) as (b0&b1&b2&b3&b4&b5&b6&b7&->).
  cbn [app le64]. f_equal.
  rewrite !le_combine_cons, le_combine_nil. unfold u64.
  rewrite !Z.shiftl_lor, !Z.shiftl_shiftl by lia. cbn [Z.add Pos.add Pos.succ].
  rewrite Z.shiftl_0_l, Z.lor_0_r, !Z.lor_assoc. reflexivity.
Qed.

Lemma le64_short (d : list byte) : (length d < 8)%nat -> le64 d = None.
Proof.
  intros H. do 8 (destruct d as [|? d]; [reflexivity|]). cbn in H. lia.
Qed.

Lemma le64_range (d : list byte) w : le64 d = Some w -> 0 <= w < 2 ^ 64.
Proof.
  intros H.
  destruct (Nat.lt_ge_cases (length d) 8) as [Hs|Hl].
  - rewrite le64_short in H by exact Hs. discriminate.
  - rewrite <- (firstn_skipn 8 d) in H.
    rewrite le64_app in H by (rewrite length_firstn; lia).
    injection H as <-.
    pose proof (le_combine_bound (firstn 8 d)) as B.
    rewrite length_firstn in B.
    replace (Z.of_nat (Nat.min 8 (length d))) with 8 in B by lia.
    exact B.
Qed.

(** ** xorIn *)

(** One round of the lane loop: with [8i] bytes done, lane [i] of the state
    is XORed with the next eight bytes of the data. *)
Lemma xorIn_lane_step (pre_s pre_d s2 d2 s' d' : list byte) (i : nat) :
  length pre_s = (8 * i)%nat -> length pre_d = (8 * i)%nat ->
  length s2 = 8%nat -> length d2 = 8%nat -> (i < 25)%nat ->
  xorIn_lane (pre_d ++ d2 ++ d') (Z.of_nat i) (pre_s ++ s2 ++ s')
  = Some (pre_s ++ Spec.xor_bytes s2 d2 ++ s').
Proof.
  intros Hs Hd Hs2 Hd2 Hi. unfold xorIn_lane.
  rewrite slice_suffix by (unfold Go.len; lia || reflexivity).
  rewrite le64_app by exact Hd2.
  unfold lane_load, lane_store, Go.in_range.
  replace ((0 <=? Z.of_nat i) && (Z.of_nat i <? 25)) with true
    by (symmetry; rewrite andb_true_iff, Z.leb_le, Z.ltb_lt; lia).
  rewrite slice_mid by (unfold Go.len; lia).
  replace (8 * Z.of_nat i + 8 <=? Go.len (pre_s ++ s2 ++ s')) with true
    by (symmetry; rewrite Z.leb_le, !len_app; unfold Go.len; lia).
  cbn [andb]. f_equal.
  rewrite firstn_app_exact by lia. f_equal.
  rewrite app_assoc, skipn_app_exact by (rewrite length_app; lia).
  f_equal. rewrite <- le_split_lxor by lia. rewrite Hs2. reflexivity.
Qed.

Lemma split_8 (l : list byte) :
  (8 <= length l)%nat ->
  exists l2 l', l = l2 ++ l' /\ length l2 = 8%nat /\ length l' = (length l - 8)%nat.
Proof.
  intros H. exists (firstn 8 l), (skipn 8 l).
  rewrite firstn_skipn, length_firstn, length_skipn. repeat split; lia.
Qed.

Lemma split_at {A} (l : list A) (n : nat) :
  (n <= length l)%nat -> exists a b, l = a ++ b /\ length a = n.
Proof.
  intros H. exists (firstn n l), (skipn n l).
  rewrite firstn_skipn, length_firstn. split; [reflexivity | lia].
Qed.

(** The lane loop, [k] rounds from lane [i]. *)
Lemma xorIn_lanes (k : nat) : forall (i : nat) (pre_s pre_d s d : list byte),
  length pre_s = (8 * i)%nat -> length pre_d = (8 * i)%nat ->
  (8 * k <= length s)%nat -> (8 * k <= length d)%nat -> (i + k <= 25)%nat ->
  Go.for_range k (Z.of_nat i) (xorIn_lane (pre_d ++ d)) (pre_s ++ s)
  = Some (pre_s ++ Spec.xor_bytes s (firstn (8 * k) d)).
Proof.
  induction k as [|k IH]; intros i pre_s pre_d s d Hs Hd Hks Hkd Hik.
  - cbn. rewrite xor_bytes_nil_r. reflexivity.
  - destruct (split_8 s) as (s2 & s' & -> & Hs2 & Hs'); [lia|].
    destruct (split_8 d) as (d2 & d' & -> & Hd2 & Hd'); [lia|].
    cbn [Go.for_range].
    rewrite xorIn_lane_step by (auto; lia).
    replace (Z.of_nat i + 1) with (Z.of_nat (S i)) by lia.
    rewrite (app_assoc pre_s), (app_assoc pre_d).
    rewrite IH by (rewrite ?length_app, ?xor_bytes_length; lia).
    rewrite <- app_assoc. do 2 f_equal.
    replace (8 * S k)%nat with (length d2 + 8 * k)%nat by lia.
    rewrite firstn_app_2. symmetry. apply xor_bytes_app. lia.
Qed.

(** The byte loop, [k] rounds from byte [i]. *)
Lemma xorIn_bytes (k : nat) : forall (i : nat) (pre_s pre_d s d : list byte),
  length pre_s = i -> length pre_d = i ->
  (k <= length s)%nat -> (k <= length d)%nat ->
  Go.for_range k (Z.of_nat i) (xorIn_byte (pre_d ++ d)) (pre_s ++ s)
  = Some (pre_s ++ Spec.xor_bytes s (firstn k d)).
Proof.
  induction k as [|k IH]; intros i pre_s pre_d s d Hs Hd Hks Hkd.
  - cbn. rewrite xor_bytes_nil_r. reflexivity.
  - destruct s as [|x s]; [cbn in Hks; lia|].
    destruct d as [|y d]; [cbn in Hkd; lia|].
    cbn [Go.for_range]. unfold xorIn_byte at 1.
    rewrite index_app by (unfold Go.len; lia).
    rewrite xor_at_app by (unfold Go.len; lia).
    replace (Z.of_nat i + 1) with (Z.of_nat (S i)) by lia.
    change (pre_s ++ byte.xor x y :: s) with (pre_s ++ [byte.xor x y] ++ s).
    change (pre_d ++ y :: d) with (pre_d ++ [y] ++ d).
    rewrite (app_assoc pre_s), (app_assoc pre_d).
    cbn in Hks, Hkd.
    rewrite IH by (rewrite ?length_app; cbn [length]; lia).
    rewrite <- app_assoc. reflexivity.
Qed.

Lemma shiftr3_div (n : Z) : Z.shiftr n 3 = n / 8.
Proof. rewrite Z.shiftr_div_pow2 by lia. reflexivity. Qed.

Lemma shiftl3_mul (n : Z) : Z.shiftl n 3 = n * 8.
Proof. rewrite Z.shiftl_mul_pow2 by lia. reflexivity. Qed.

(** [xorIn] is the byte-for-byte XOR whenever the data fits the state. *)
Lemma xorIn_xor_bytes (state data : list byte) :
  length state = 200%nat -> (length data <= 200)%nat ->
  xorIn state data = Some (Spec.xor_bytes state data).
Proof.
  intros Hst Hd. unfold xorIn, Go.for_loop.
  rewrite shiftr3_div, shiftl3_mul, Z.sub_0_r.
  set (n := Z.to_nat (Go.len data / 8)).
  assert (Hn : (8 * n <= length data)%nat /\ (length data < 8 * n + 8)%nat).
  { subst n. unfold Go.len.
    pose proof (Z.div_mod (Z.of_nat (length data)) 8 ltac:(lia)).
    pose proof (Z.mod_pos_bound (Z.of_nat (length data)) 8 ltac:(lia)).
    lia. }
  pose proof (xorIn_lanes n 0 [] [] state data eq_refl eq_refl) as L.
  cbn [app Z.of_nat] in L. rewrite L by lia. clear L.
  replace (Go.len data - Go.len data / 8 * 8)
    with (Z.of_nat (length data - 8 * n)).
  2:{ subst n. unfold Go.len in *.
      pose proof (Z.div_mod (Z.of_nat (length data)) 8 ltac:(lia)).
      pose proof (Z.mod_pos_bound (Z.of_nat (length data)) 8 ltac:(lia)).
      lia. }
  replace (Go.len data / 8 * 8) with (Z.of_nat (8 * n)).
  2:{ subst n. unfold Go.len in *.
      pose proof (Z.div_mod (Z.of_nat (length data)) 8 ltac:(lia)).
      pose proof (Z.mod_pos_bound (Z.of_nat (length data)) 8 ltac:(lia)).
      lia. }
  rewrite Nat2Z.id.
  destruct (split_at state (8 * n)) as (s1 & s2 & -> & Hs1); [lia|].
  destruct (split_at data (8 * n)) as (d1 & d2 & -> & Hd1); [lia|].
  rewrite length_app in *.
  rewrite firstn_app_exact by lia.
  rewrite xor_bytes_short by lia.
  rewrite xorIn_bytes by (rewrite ?xor_bytes_length; lia).
  rewrite firstn_all2 by lia.
  rewrite xor_bytes_app by lia. reflexivity.
Qed.

Lemma xor_at_spec (st : list byte) (i : nat) (b : byte) :
  (i < length st)%nat ->
  Go.xor_at st (Z.of_nat i) b = Some (Spec.xor_byte st i b).
Proof.
  intros H. destruct (split_at st i) as (a & c & -> & Ha); [lia|].
  destruct c as [|x c]; [rewrite length_app in H; cbn in H; lia|].
  rewrite xor_at_app by (unfold Go.len; lia).
  rewrite xor_byte_app by lia. reflexivity.
Qed.

(** ** The absorb loop *)

Section SpongeProofs.

Context {P : PermutationCore}.

Lemma spec_absorb_small fuel st d :
  (length d < 136)%nat -> Spec.absorb fuel st d = (st, d).
Proof.
  intros H. destruct fuel; [reflexivity|]. cbn [Spec.absorb].
  destruct (Nat.leb_spec 136 (length d)); [lia | reflexivity].
Qed.

Lemma spec_absorb_block fuel st blk rest :
  length blk = 136%nat ->
  Spec.absorb (S fuel) st (blk ++ rest)
  = Spec.absorb fuel (keccakF1600 (Spec.xor_bytes st blk)) rest.
Proof.
  intros H. cbn [Spec.absorb].
  destruct (Nat.leb_spec 136 (length (blk ++ rest))) as [_|L];
    [|rewrite length_app in L; lia].
  rewrite firstn_app_exact, skipn_app_exact by lia. reflexivity.
Qed.

(** Any fuel that covers the full blocks gives the same result. *)
Lemma spec_absorb_fuel fuel1 : forall fuel2 st d,
  (length d < 136 * S fuel1)%nat -> (length d < 136 * S fuel2)%nat ->
  Spec.absorb fuel1 st d = Spec.absorb fuel2 st d.
Proof.
  induction fuel1 as [|f1 IH]; intros fuel2 st d H1 H2.
  - rewrite !spec_absorb_small by lia. reflexivity.
  - destruct (Nat.lt_ge_cases (length d) 136) as [Hs|Hl].
    + rewrite !spec_absorb_small by lia. reflexivity.
    + destruct fuel2 as [|f2]; [lia|].
      destruct (split_at d 136) as (blk & rest & -> & Hb); [lia|].
      rewrite length_app in *.
      rewrite !spec_absorb_block by exact Hb. apply IH; lia.
Qed.

Lemma spec_absorb_length fuel : forall st d st' t,
  length st = 200%nat -> Spec.absorb fuel st d = (st', t) ->
  length st' = 200%nat.
Proof.
  induction fuel as [|f IH]; intros st d st' t Hst H; cbn [Spec.absorb] in H.
  - congruence.
  - destruct (136 <=? length d)%nat; [|congruence].
    eapply IH; [|exact H]. apply keccakF1600_length.
    rewrite xor_bytes_length. exact Hst.
Qed.

Lemma spec_absorb_tail fuel : forall st d st' t,
  (length d < 136 * S fuel)%nat -> Spec.absorb fuel st d = (st', t) ->
  (length t < 136)%nat /\ (length t = length d mod 136)%nat.
Proof.
  induction fuel as [|f IH]; intros st d st' t Hd H.
  - rewrite spec_absorb_small in H by lia. injection H as <- <-.
    rewrite Nat.mod_small by lia. lia.
  - destruct (Nat.lt_ge_cases (length d) 136) as [Hs|Hl].
    + rewrite spec_absorb_small in H by lia. injection H as <- <-.
      rewrite Nat.mod_small by lia. lia.
    + destruct (split_at d 136) as (blk & rest & -> & Hb); [lia|].
      rewrite length_app in *. rewrite spec_absorb_block in H by exact Hb.
      apply IH in H; [|lia]. destruct H as [H1 H2]. split; [exact H1|].
      rewrite H2, Hb.
      replace (136 + length rest)%nat with (length rest + 1 * 136)%nat by lia.
      rewrite Nat.Div0.mod_add. reflexivity.
Qed.

(** Appending more data continues from the state and tail reached so far. *)
Lemma spec_absorb_app fuel : forall fuel1 fuel2 st d p st' t,
  (length d < 136 * S fuel)%nat ->
  (length (d ++ p) < 136 * S fuel1)%nat ->
  (length (t ++ p) < 136 * S fuel2)%nat ->
  Spec.absorb fuel st d = (st', t) ->
  Spec.absorb fuel1 st (d ++ p) = Spec.absorb fuel2 st' (t ++ p).
Proof.
  induction fuel as [|f IH]; intros fuel1 fuel2 st d p st' t Hd H1 H2 H.
  - rewrite spec_absorb_small in H by lia. injection H as <- <-.
    apply spec_absorb_fuel; assumption.
  - destruct (Nat.lt_ge_cases (length d) 136) as [Hs|Hl].
    + rewrite spec_absorb_small in H by lia. injection H as <- <-.
      apply spec_absorb_fuel; assumption.
    + destruct (split_at d 136) as (blk & rest & -> & Hb); [lia|].
      rewrite spec_absorb_block in H by exact Hb.
      rewrite length_app in Hd. rewrite <- app_assoc in *.
      destruct fuel1 as [|f1]; [rewrite length_app in H1; lia|].
      rewrite spec_absorb_block by exact Hb.
      eapply IH; [| |exact H2|exact H]; [lia|].
      rewrite length_app in H1. lia.
Qed.

(** The loop of the code computes [Spec.absorb], and never panics. *)
Lemma absorb_blocks_spec fuel : forall st d,
  length st = 200%nat -> (length d < 136 * S fuel)%nat ->
  absorb_blocks fuel st d = Some (Spec.absorb fuel st d).
Proof.
  induction fuel as [|f IH]; intros st d Hst Hd.
  - rewrite spec_absorb_small by lia. cbn [absorb_blocks].
    unfold rate, Go.len. destruct (Z.leb_spec 136 (Z.of_nat (length d))); [lia|].
    reflexivity.
  - cbn [absorb_blocks]. unfold rate at 1, Go.len at 1.
    destruct (Z.leb_spec 136 (Z.of_nat (length d))) as [Hl|Hs].
    + destruct (split_at d 136) as (blk & rest & -> & Hb); [lia|].
      rewrite length_app in Hd.
      rewrite slice_prefix by (unfold rate, Go.len; lia).
      rewrite xorIn_xor_bytes by (auto; lia).
      rewrite slice_suffix by (unfold rate, Go.len; lia || reflexivity).
      rewrite spec_absorb_block by exact Hb.
      apply IH; [|lia]. apply keccakF1600_length.
      rewrite xor_bytes_length. exact Hst.
    + rewrite spec_absorb_small by lia. reflexivity.
Qed.

Lemma zero_state_length : length zero_state = 200%nat.
Proof. reflexivity. Qed.

Lemma pad_spec (st : list byte) (n : nat) :
  length st = 200%nat -> (n < 136)%nat ->
  pad st (Z.of_nat n)
  = Some (Spec.xor_byte (Spec.xor_byte st n Byte.x01) 135 Byte.x80).
Proof.
  intros Hst Hn. unfold pad.
  rewrite xor_at_spec by lia.
  change (rate - 1) with (Z.of_nat 135).
  rewrite xor_at_spec by (rewrite xor_byte_length; lia).
  reflexivity.
Qed.

Lemma finish_steps (st tail : list byte) :
  length st = 200%nat -> (length tail < 136)%nat ->
  (st1 <- xorIn st tail ;;
   st2 <- pad st1 (Go.len tail) ;;
   Go.slice (keccakF1600 st2) 0 32) = Some (Spec.finish st tail).
Proof.
  intros Hst Ht.
  rewrite xorIn_xor_bytes by (auto; lia).
  unfold Go.len. rewrite pad_spec by (rewrite ?xor_bytes_length; auto).
  rewrite slice_firstn; [reflexivity|].
  unfold Go.len. rewrite keccakF1600_length; [lia|].
  rewrite !xor_byte_length, xor_bytes_length. exact Hst.
Qed.

Lemma finish_length st tail :
  length st = 200%nat -> length (Spec.finish st tail) = 32%nat.
Proof.
  intros Hst. unfold Spec.finish. rewrite length_firstn, keccakF1600_length; [lia|].
  rewrite !xor_byte_length, xor_bytes_length. exact Hst.
Qed.

Lemma hash_finish data :
  Spec.hash data
  = let '(st, t) := Spec.absorb (length data) zero_state data in Spec.finish st t.
Proof. reflexivity. Qed.

(** [Sum256] computes the algorithm of the specification. *)
Lemma Sum256_hash (data : list byte) : Sum256 data = Some (Spec.hash data).
Proof.
  unfold Sum256.
  rewrite absorb_blocks_spec by (apply zero_state_length || lia).
  rewrite hash_finish.
  destruct (Spec.absorb (length data) zero_state data) as [st t] eqn:E.
  pose proof (spec_absorb_length _ _ _ _ _ zero_state_length E).
  destruct (spec_absorb_tail (length data) zero_state data st t ltac:(lia) E) as [Ht _].
  apply finish_steps; assumption.
Qed.

End SpongeProofs.

(** ** The streaming hasher *)

Section HasherProofs.

Context {P : PermutationCore}.

Import Hasher.

Lemma copy_at_spec (arr : list byte) (lo hi : Z) (src : list byte) :
  0 <= lo <= hi -> hi <= Go.len arr ->
  Go.copy_at arr lo hi src
  = Some (firstn (Z.to_nat lo) arr
            ++ firstn (Z.to_nat (Z.min (hi - lo) (Go.len src))) src
            ++ skipn (Z.to_nat (lo + Z.min (hi - lo) (Go.len src))) arr,
          Z.min (hi - lo) (Go.len src)).
Proof.
  intros H1 H2. unfold Go.copy_at, Go.slice.
  replace ((0 <=? lo) && (lo <=? hi) && (hi <=? Go.len arr)) with true
    by (symmetry; rewrite !andb_true_iff, !Z.leb_le; lia).
  replace (Go.len (firstn (Z.to_nat (hi - lo)) (skipn (Z.to_nat lo) arr)))
    with (hi - lo); [reflexivity|].
  unfold Go.len in *. rewrite length_firstn, length_skipn. lia.
Qed.

Lemma set_state_id h : set_state h (state h) = h.
Proof. destruct h; reflexivity. Qed.

Lemma topup_idle h p : absorbed h <= 0 -> Write_topup h p = Some (h, p).
Proof.
  intros H. unfold Write_topup.
  destruct (Z.ltb_spec 0 (absorbed h)); [lia | reflexivity].
Qed.

(** The chunk does not fill the pending buffer: it is appended to it. *)
Lemma topup_partial h p :
  length (buf h) = 136%nat -> 0 < absorbed h ->
  absorbed h + Go.len p < rate ->
  Write_topup h p
  = Some ({| state := state h;
             buf := pending h ++ p
                      ++ skipn (Z.to_nat (absorbed h + Go.len p)) (buf h);
             absorbed := absorbed h + Go.len p |}, []).
Proof.
  intros Hb Ha Hp. unfold Write_topup, rate in *.
  destruct (Z.ltb_spec 0 (absorbed h)); [|lia].
  pose proof (len_nonneg p) as Hl.
  rewrite copy_at_spec by (unfold Go.len; lia).
  rewrite Z.min_r by lia.
  cbn [absorbed set_absorbed set_buf state buf].
  rewrite slice_skipn by (lia || reflexivity).
  destruct (Z.eqb_spec (absorbed h + Go.len p) 136); [lia|].
  unfold Go.len. rewrite Nat2Z.id, skipn_all, firstn_all. reflexivity.
Qed.

(** The chunk fills the pending buffer: the full block is absorbed. *)
Lemma topup_fill h p :
  length (state h) = 200%nat -> length (buf h) = 136%nat ->
  0 < absorbed h < rate -> rate <= absorbed h + Go.len p ->
  let k := Z.to_nat (rate - absorbed h) in
  let blk := pending h ++ firstn k p in
  Write_topup h p
  = Some ({| state := keccakF1600 (Spec.xor_bytes (state h) blk);
             buf := blk; absorbed := 0 |}, skipn k p)
  /\ length blk = 136%nat.
Proof.
  intros Hs Hb Ha Hp k blk. unfold Write_topup, rate in *.
  destruct (Z.ltb_spec 0 (absorbed h)); [|lia].
  rewrite copy_at_spec by (unfold Go.len; lia).
  rewrite Z.min_l by lia.
  cbn [absorbed set_absorbed set_buf state buf].
  assert (Hblk : length blk = 136%nat).
  { subst blk k. unfold pending, Go.len in *.
    rewrite length_app, !length_firstn. lia. }
  split; [|exact Hblk].
  rewrite slice_skipn by (unfold Go.len in *; lia || reflexivity).
  destruct (Z.eqb_spec (absorbed h + (136 - absorbed h)) 136); [|lia].
  replace (absorbed h + (136 - absorbed h)) with 136 by lia.
  rewrite (skipn_all2 (n := Z.to_nat 136)) by lia.
  rewrite app_nil_r. fold (pending h). fold k. fold blk.
  rewrite slice_all by reflexivity.
  rewrite xorIn_xor_bytes by (auto; lia).
  reflexivity.
Qed.

(** The block loop and the leftover copy, from a hasher with nothing
    pending. *)
Lemma blocks_leftover_idle h p :
  length (state h) = 200%nat -> length (buf h) = 136%nat -> absorbed h = 0 ->
  exists h',
    ('(h1, p1) <- Write_blocks h p ;; Write_leftover h1 p1) = Some h'
    /\ well_typed h' /\ pending_ok h'
    /\ (state h', pending h') = Spec.absorb (length p) (state h) p.
Proof.
  intros Hs Hb Ha. unfold Write_blocks.
  rewrite absorb_blocks_spec by (auto; lia).
  destruct (Spec.absorb (length p) (state h) p) as [s t] eqn:E.
  pose proof (spec_absorb_length _ _ _ _ _ Hs E) as Hs'.
  destruct (spec_absorb_tail (length p) (state h) p s t ltac:(lia) E) as [Ht _].
  unfold Write_leftover. cbn [buf set_state].
  destruct (Z.ltb_spec 0 (Go.len t)) as [Hpos|Hnil].
  - rewrite copy_at_spec by (unfold Go.len; lia).
    rewrite Z.sub_0_r, Z.min_r by (unfold Go.len; lia).
    eexists. split; [reflexivity|].
    unfold well_typed, pending_ok, pending, rate.
    cbn [state buf absorbed set_absorbed set_buf set_state Z.to_nat firstn app].
    unfold Go.len. rewrite Z.add_0_l, Nat2Z.id, firstn_all.
    rewrite length_app, length_skipn.
    repeat split; try lia.
    rewrite firstn_app_exact by reflexivity. reflexivity.
  - assert (t = []) as -> by (destruct t; [reflexivity | unfold Go.len in Hnil; cbn in Hnil; lia]).
    eexists. split; [reflexivity|].
    unfold well_typed, pending_ok, pending, rate.
    cbn [state buf absorbed set_state]. rewrite Ha.
    repeat split; auto; lia.
Qed.

Lemma pending_mk s b a :
  pending {| state := s; buf := b; absorbed := a |} = firstn (Z.to_nat a) b.
Proof. reflexivity. Qed.

Lemma pending_length h :
  length (buf h) = 136%nat -> pending_ok h ->
  Go.len (pending h) = absorbed h.
Proof.
  unfold pending_ok, pending, rate, Go.len. intros Hb Ha.
  rewrite length_firstn. lia.
Qed.

(** [Write] continues the absorption of the stream: from state [s] with
    pending bytes [t], writing [p] leads to the state and pending bytes that
    absorbing [t ++ p] from [s] gives. *)
Lemma Write_spec h p :
  well_typed h -> pending_ok h ->
  exists h',
    Write h p = Some h' /\ well_typed h' /\ pending_ok h'
    /\ (state h', pending h')
       = Spec.absorb (length (pending h ++ p)) (state h) (pending h ++ p).
Proof.
  intros [Hs Hb] Ha. unfold Write.
  pose proof (pending_length h Hb Ha) as Hpl.
  unfold pending_ok, rate in Ha.
  destruct (Z.eq_dec (absorbed h) 0) as [H0|Hpos].
  - rewrite topup_idle by lia.
    replace (pending h) with (@nil byte)
      by (unfold pending; rewrite H0; reflexivity).
    apply blocks_leftover_idle; assumption.
  - destruct (Z.lt_ge_cases (absorbed h + Go.len p) rate) as [Hlt|Hge].
    + rewrite topup_partial by (auto; lia).
      unfold Write_blocks. cbn [length absorb_blocks state].
      unfold Write_leftover. cbn.
      eexists. split; [reflexivity|].
      assert (Hlen : length (pending h ++ p) = Z.to_nat (absorbed h + Go.len p)).
      { rewrite length_app. unfold Go.len in *. lia. }
      unfold well_typed, pending_ok, set_state.
      cbn [state buf absorbed]. rewrite pending_mk.
      rewrite app_assoc, firstn_app_exact by (symmetry; exact Hlen).
      rewrite spec_absorb_small by (unfold rate in *; lia).
      rewrite !length_app, length_skipn. fold (Go.len p) (Go.len (pending h)).
      unfold Go.len in *. unfold rate in *.
      repeat split; solve [lia | exact Hs].
    + destruct (topup_fill h p Hs Hb ltac:(unfold rate; lia) Hge) as [E Hblk].
      cbv zeta in E. rewrite E. clear E.
      set (k := Z.to_nat (rate - absorbed h)) in *.
      set (blk := pending h ++ firstn k p) in *.
      set (h1 := {| state := keccakF1600 (Spec.xor_bytes (state h) blk);
                    buf := blk; absorbed := 0 |}).
      destruct (blocks_leftover_idle h1 (skipn k p)) as (h' & E & W & I & S).
      { cbn. apply keccakF1600_length. rewrite xor_bytes_length. exact Hs. }
      { exact Hblk. }
      { reflexivity. }
      exists h'. split; [exact E|]. split; [exact W|]. split; [exact I|].
      rewrite S. cbn [state h1].
      rewrite <- (firstn_skipn k p) at 3 4.
      rewrite app_assoc. fold blk.
      rewrite length_app, Hblk. cbn [Nat.add].
      rewrite spec_absorb_block by exact Hblk.
      apply spec_absorb_fuel; lia.
Qed.

(** [Hasher.Sum256] finishes a copy of the state with the pending bytes and
    hands the hasher back as it was. *)
Lemma Hasher_Sum256_spec h :
  well_typed h -> pending_ok h ->
  Hasher.Sum256 h = Some (Spec.finish (state h) (pending h), h).
Proof.
  intros [Hs Hb] Ha. pose proof (pending_length h Hb Ha) as Hpl.
  unfold pending_ok, rate in Ha. unfold Hasher.Sum256.
  rewrite slice_firstn by (unfold Go.len; lia). fold (pending h).
  rewrite xorIn_xor_bytes by (auto; unfold Go.len in Hpl; lia).
  rewrite <- Hpl. unfold Go.len. unfold Go.len in Hpl.
  rewrite pad_spec by (rewrite ?xor_bytes_length; auto; lia).
  rewrite slice_firstn; [reflexivity|].
  unfold Go.len. rewrite keccakF1600_length; [lia|].
  rewrite !xor_byte_length, xor_bytes_length. exact Hs.
Qed.

Lemma zero_well_typed : well_typed zero.
Proof. split; reflexivity. Qed.

Lemma zero_pending_ok : pending_ok zero.
Proof. unfold pending_ok, rate. cbn. lia. Qed.

Lemma Reset_well_typed h : length (buf h) = 136%nat -> well_typed (Reset h).
Proof. intros H. split; [reflexivity | exact H]. Qed.

Lemma Reset_pending_ok h : pending_ok (Reset h).
Proof. unfold pending_ok, rate. cbn. lia. Qed.

(** A sequence of writes absorbs the concatenation of the chunks. *)
Lemma write_all_spec chunks : forall h,
  well_typed h -> pending_ok h ->
  exists h',
    write_all h chunks = Some h' /\ well_typed h' /\ pending_ok h'
    /\ (state h', pending h')
       = Spec.absorb (length (pending h ++ concat chunks)) (state h)
                     (pending h ++ concat chunks).
Proof.
  induction chunks as [|c cs IH]; intros h W I.
  - exists h. cbn [write_all concat]. rewrite app_nil_r.
    repeat split; try apply W; try apply I.
    rewrite spec_absorb_small; [reflexivity|].
    pose proof (pending_length h (proj2 W) I). unfold pending_ok, rate, Go.len in *.
    lia.
  - destruct (Write_spec h c W I) as (h1 & E1 & W1 & I1 & S1).
    destruct (IH h1 W1 I1) as (h' & E' & W' & I' & S').
    exists h'. cbn [write_all concat]. rewrite E1.
    split; [exact E'|]. split; [exact W'|]. split; [exact I'|].
    rewrite S'. symmetry. rewrite app_assoc.
    eapply spec_absorb_app; [| | |symmetry; exact S1]; lia.
Qed.

(** Writing the chunks to a fresh hasher and finishing gives the one-shot
    digest of their concatenation. *)
Lemma stream_digest chunks :
  exists h,
    write_all zero chunks = Some h /\ well_typed h /\ pending_ok h
    /\ Hasher.Sum256 h = Some (Spec.hash (concat chunks), h).
Proof.
  destruct (write_all_spec chunks zero zero_well_typed zero_pending_ok)
    as (h & E & W & I & S).
  exists h. split; [exact E|]. split; [exact W|]. split; [exact I|].
  rewrite Hasher_Sum256_spec by assumption. rewrite hash_finish.
  change (pending zero ++ concat chunks) with (concat chunks) in S.
  change (state zero) with zero_state in S. rewrite <- S. reflexivity.
Qed.

(** ** Clients: sequences of calls *)

Lemma run_app cs1 : forall h cs2,
  run h (cs1 ++ cs2)
  = ('(ds1, h1) <- run h cs1 ;;
     '(ds2, h2) <- run h1 cs2 ;;
     Some (ds1 ++ ds2, h2)).
Proof.
  induction cs1 as [|c cs1 IH]; intros h cs2.
  - cbn. destruct (run h cs2) as [[ds2 h2]|]; reflexivity.
  - destruct c; cbn [app run].
    + destruct (Write h p) as [h1|]; [apply IH | reflexivity].
    + destruct (Hasher.Sum256 h) as [[d h1]|]; [|reflexivity].
      rewrite IH. destruct (run h1 cs1) as [[ds1 h2]|]; [|reflexivity].
      destruct (run h2 cs2) as [[ds2 h3]|]; reflexivity.
    + apply IH.
Qed.

(** No sequence of calls panics, and the invariants hold throughout. *)
Lemma run_total cs : forall h,
  well_typed h -> pending_ok h ->
  exists ds h', run h cs = Some (ds, h') /\ well_typed h' /\ pending_ok h'.
Proof.
  induction cs as [|c cs IH]; intros h W I.
  - exists [], h. auto.
  - destruct c; cbn [run].
    + destruct (Write_spec h p W I) as (h1 & E1 & W1 & I1 & _). rewrite E1.
      apply IH; assumption.
    + rewrite Hasher_Sum256_spec by assumption.
      destruct (IH h W I) as (ds & h' & E & W' & I'). rewrite E.
      eauto.
    + apply IH; [apply Reset_well_typed, W | apply Reset_pending_ok].
Qed.

Lemma similar_digests cs : forall h1 h2,
  similar h1 h2 ->
  exists ds h1' h2',
    run h1 cs = Some (ds, h1') /\ run h2 cs = Some (ds, h2')
    /\ similar h1' h2'.
Proof.
  induction cs as [|c cs IH]; intros h1 h2 S.
  - exists [], h1, h2. auto.
  - destruct S as (W1 & I1 & W2 & I2 & Es & Ep). destruct c; cbn [run].
    + destruct (Write_spec h1 p W1 I1) as (k1 & E1 & V1 & J1 & S1).
      destruct (Write_spec h2 p W2 I2) as (k2 & E2 & V2 & J2 & S2).
      rewrite E1, E2. apply IH.
      rewrite <- Es, <- Ep, <- S1 in S2. injection S2 as Hs Hp.
      repeat split; try apply V1; try apply V2; try apply J1; try apply J2;
        congruence.
    + rewrite !Hasher_Sum256_spec by assumption.
      destruct (IH h1 h2) as (ds & k1 & k2 & E1 & E2 & S);
        [repeat split; try apply W1; try apply W2; try apply I1; try apply I2;
         assumption|].
      rewrite E1, E2, Es, Ep. eauto 6.
    + apply IH.
      repeat split; try apply W1; try apply W2; try apply Reset_pending_ok;
        reflexivity.
Qed.

Lemma byte_xor_01_80 (x : byte) :
  byte.xor (byte.xor x x01) x80 = byte.xor x x81.
Proof. destruct x; vm_compute; reflexivity. Qed.

Lemma xor_byte_01_80 st : forall i,
  Spec.xor_byte (Spec.xor_byte st i x01) i x80 = Spec.xor_byte st i x81.
Proof.
  induction st as [|s st IH]; intros [|i]; cbn; try reflexivity.
  - f_equal. apply byte_xor_01_80.
  - f_equal. apply IH.
Qed.

(** An empty write returns the hasher as it was. *)
Lemma Write_nil h :
  well_typed h -> pending_ok h -> Write h [] = Some h.
Proof.
  intros [Hs Hb] I. unfold Write, pending_ok, rate in *.
  destruct (Z.eq_dec (absorbed h) 0) as [H0|Hpos].
  - rewrite topup_idle by lia. unfold Write_blocks. cbn.
    rewrite set_state_id. reflexivity.
  - rewrite topup_partial by (auto; unfold rate, Go.len; cbn [length]; lia).
    unfold Write_blocks. cbn [length absorb_blocks state].
    cbn. unfold pending, set_state. cbn [state buf absorbed].
    change (Go.len []) with 0. rewrite Z.add_0_r, firstn_skipn.
    destruct h; reflexivity.
Qed.

Lemma concat_singletons {A} (l : list A) :
  concat (map (fun b => [b]) l) = l.
Proof.
  induction l as [|b l IH]; cbn; [reflexivity | f_equal; exact IH].
Qed.

Lemma write_all_app cs1 : forall h cs2,
  write_all h (cs1 ++ cs2) = (h1 <- write_all h cs1 ;; write_all h1 cs2).
Proof.
  induction cs1 as [|c cs1 IH]; intros h cs2; cbn [app write_all].
  - reflexivity.
  - destruct (Write h c); [apply IH | reflexivity].
Qed.

Lemma reachable_inv h : reachable h -> well_typed h /\ pending_ok h.
Proof.
  induction 1 as [|h R [W I]|h p h' R [W I] E|h d h' R [W I] E].
  - split; [apply zero_well_typed | apply zero_pending_ok].
  - split; [apply Reset_well_typed, W | apply Reset_pending_ok].
  - destruct (Write_spec h p W I) as (k & Ek & Wk & Ik & _).
    rewrite Ek in E. injection E as <-. auto.
  - rewrite Hasher_Sum256_spec in E by assumption. injection E as _ <-. auto.
Qed.

End HasherProofs.

(** ** The claims *)

Section Claims.

Context {P : PermutationCore}.

(** C1. For every sequence of chunks (non-empty or not), writing the chunks
    one after the other to a fresh hasher and calling [Hasher.Sum256] once
    returns the digest that the one-shot [Sum256] returns on the
    concatenation of the chunks; in particular for the partition of any byte
    sequence into single bytes. *)
Theorem streaming_equals_one_shot :
  (forall chunks : list (list byte),
     exists h d,
       Hasher.write_all Hasher.zero chunks = Some h
       /\ Hasher.Sum256 h = Some (d, h)
       /\ Sum256 (concat chunks) = Some d)
  /\ (forall data : list byte,
        exists h d,
          Hasher.write_all Hasher.zero (map (fun b => [b]) data) = Some h
          /\ Hasher.Sum256 h = Some (d, h)
          /\ Sum256 data = Some d).
Proof.
  assert (G : forall chunks : list (list byte),
             exists h d,
               Hasher.write_all Hasher.zero chunks = Some h
               /\ Hasher.Sum256 h = Some (d, h)
               /\ Sum256 (concat chunks) = Some d).
  { intros chunks.
    destruct (stream_digest chunks) as (h & E & _ & _ & D).
    exists h, (Spec.hash (concat chunks)).
    split; [exact E|]. split; [exact D|]. apply Sum256_hash. }
  split; [exact G|].
  intros data. destruct (G (map (fun b => [b]) data)) as (h & d & E & D & S).
  exists h, d. split; [exact E|]. split; [exact D|].
  rewrite <- S. f_equal. symmetry. apply concat_singletons.
Qed.

(** C2. [Sum256 data] is the digest computed by the algorithm of the
    specification: from the all-zero 200-byte state, XOR each full block of
    [rate] bytes into the state and permute; XOR the tail in; XOR 0x01 at
    index [len(tail)] and 0x80 at index [rate-1]; permute; return the first
    32 bytes. *)
Theorem Sum256_refines_spec (data : list byte) :
  Sum256 data = Some (Spec.hash data).
Proof. apply Sum256_hash. Qed.

(** C4. [Hasher.Sum256] is non-destructive: whenever it returns, the fields
    state, buf and absorbed of the hasher are what they were; a second call
    returns the same digest; later writes behave as if no digest had been
    taken, and on a hasher that has been fed [chunks1] they continue that
    stream: after writing [chunks2] the digest is the one-shot digest of all
    the bytes. *)
Theorem Sum256_non_destructive (h : Hasher.t) (d : list byte) (h' : Hasher.t) :
  Hasher.Sum256 h = Some (d, h') ->
  (Hasher.state h' = Hasher.state h
   /\ Hasher.buf h' = Hasher.buf h
   /\ Hasher.absorbed h' = Hasher.absorbed h)
  /\ Hasher.Sum256 h' = Some (d, h')
  /\ (forall chunks, Hasher.write_all h' chunks = Hasher.write_all h chunks)
  /\ (forall chunks1 chunks2,
        Hasher.write_all Hasher.zero chunks1 = Some h ->
        exists h2 d2,
          Hasher.write_all h' chunks2 = Some h2
          /\ Hasher.Sum256 h2 = Some (d2, h2)
          /\ Sum256 (concat chunks1 ++ concat chunks2) = Some d2).
Proof.
  intros E.
  assert (h' = h) as ->.
  { unfold Hasher.Sum256 in E.
    destruct (Go.slice (Hasher.buf h) 0 (Hasher.absorbed h)) as [b|];
      [|discriminate].
    destruct (xorIn (Hasher.state h) b) as [s1|]; [|discriminate].
    destruct (pad s1 (Hasher.absorbed h)) as [s2|]; [|discriminate].
    destruct (Go.slice (keccakF1600 s2) 0 32); [|discriminate].
    injection E as _ <-. reflexivity. }
  split; [auto|]. split; [exact E|]. split; [reflexivity|].
  intros chunks1 chunks2 E1.
  destruct (stream_digest (chunks1 ++ chunks2)) as (h2 & E2 & _ & _ & D).
  rewrite write_all_app, E1 in E2.
  exists h2, (Spec.hash (concat (chunks1 ++ chunks2))).
  split; [exact E2|]. split; [exact D|].
  rewrite <- concat_app. apply Sum256_hash.
Qed.

(** C5. [Hasher.Reset] sets the state to all-zero bytes and the pending
    count to 0, leaves the contents of the pending buffer alone, and makes
    the hasher indistinguishable from a fresh one: every later sequence of
    Write, Sum256 and Reset calls runs without panic on both and returns the
    same digests. *)
Theorem Reset_equals_fresh (h : Hasher.t) :
  length (Hasher.buf h) = 136%nat ->
  Hasher.state (Hasher.Reset h) = zero_state
  /\ Hasher.absorbed (Hasher.Reset h) = 0
  /\ Hasher.buf (Hasher.Reset h) = Hasher.buf h
  /\ (forall cs, exists ds k1 k2,
        Hasher.run (Hasher.Reset h) cs = Some (ds, k1)
        /\ Hasher.run Hasher.zero cs = Some (ds, k2)).
Proof.
  intros Hb. split; [reflexivity|]. split; [reflexivity|].
  split; [reflexivity|]. intros cs.
  destruct (similar_digests cs (Hasher.Reset h) Hasher.zero)
    as (ds & k1 & k2 & E1 & E2 & _).
  - repeat split; try apply Reset_pending_ok; try apply zero_pending_ok.
    exact Hb.
  - eauto.
Qed.

(** C6. Every hasher a client can hold (the zero value, and whatever Reset,
    Write and Sum256 make of it) satisfies [0 <= absorbed < rate]; so the
    pending count is never [rate]; Reset puts it at 0; and the next Write,
    with any chunk, returns a hasher that satisfies the invariant again. *)
Theorem pending_count_invariant (h : Hasher.t) :
  Hasher.reachable h ->
  0 <= Hasher.absorbed h < rate
  /\ Hasher.absorbed h <> rate
  /\ Hasher.absorbed (Hasher.Reset h) = 0
  /\ (forall p, exists h',
        Hasher.Write h p = Some h' /\ 0 <= Hasher.absorbed h' < rate).
Proof.
  intros R. destruct (reachable_inv h R) as [W I].
  split; [exact I|]. split; [unfold Hasher.pending_ok in I; lia|].
  split; [reflexivity|].
  intros p. destruct (Write_spec h p W I) as (h' & E & _ & I' & _).
  exists h'. split; [exact E | exact I'].
Qed.

(** C7. For a 200-byte state and data of at most [rate] bytes, [xorIn]
    returns the state whose byte [i] is [state[i] XOR data[i]] for every
    [i < len(data)] and is unchanged for every [i >= len(data)]; the lane
    loop alone (little-endian uint64 XOR over the first [8 * (len(data) / 8)]
    bytes) already equals the byte-for-byte XOR of those bytes.  [xorIn] is
    defined without reference to the permutation. *)
Theorem xorIn_bytewise (state data : list byte) :
  length state = 200%nat -> Go.len data <= rate ->
  exists state',
    xorIn state data = Some state'
    /\ state' = Spec.xor_bytes state data
    /\ length state' = 200%nat
    /\ (forall i, 0 <= i < Go.len data ->
          exists x y,
            Go.index state i = Some x /\ Go.index data i = Some y
            /\ Go.index state' i = Some (byte.xor x y))
    /\ (forall i, Go.len data <= i -> Go.index state' i = Go.index state i)
    /\ Go.for_loop 0 (Z.shiftr (Go.len data) 3) (xorIn_lane data) state
       = Some (Spec.xor_bytes state
                 (firstn (8 * Z.to_nat (Z.shiftr (Go.len data) 3)) data)).
Proof.
  intros Hst Hd. unfold rate, Go.len in Hd.
  exists (Spec.xor_bytes state data).
  split; [apply xorIn_xor_bytes; [exact Hst | lia]|].
  split; [reflexivity|].
  split; [rewrite xor_bytes_length; exact Hst|].
  split; [|split].
  - intros i Hi. unfold Go.index, Go.in_range, Go.len in *.
    rewrite xor_bytes_length, Hst.
    replace ((0 <=? i) && (i <? Z.of_nat 200)) with true
      by (symmetry; rewrite andb_true_iff, Z.leb_le, Z.ltb_lt; lia).
    replace ((0 <=? i) && (i <? Z.of_nat (length data))) with true
      by (symmetry; rewrite andb_true_iff, Z.leb_le, Z.ltb_lt; lia).
    destruct (nth_error state (Z.to_nat i)) as [x|] eqn:Ex;
      [|apply nth_error_None in Ex; lia].
    destruct (nth_error data (Z.to_nat i)) as [y|] eqn:Ey;
      [|apply nth_error_None in Ey; lia].
    exists x, y. repeat split. apply xor_bytes_nth; assumption.
  - intros i Hi. unfold Go.index, Go.len in *.
    rewrite xor_bytes_length.
    destruct (Go.in_range i (Z.of_nat (length state))); [|reflexivity].
    apply xor_bytes_nth_high. lia.
  - unfold Go.for_loop. rewrite shiftr3_div, Z.sub_0_r.
    pose proof (Z.div_mod (Go.len data) 8 ltac:(lia)) as D.
    pose proof (Z.mod_pos_bound (Go.len data) 8 ltac:(lia)) as B.
    unfold Go.len in *.
    apply (xorIn_lanes _ 0 [] [] state data eq_refl eq_refl); lia.
Qed.

(** C8. When the tail has [rate - 1] bytes, the two padding XORs hit the
    same byte: XOR 0x01 into [state[rate-1]], then XOR 0x80 into
    [state[rate-1]], changes that byte by XOR 0x81 and no other byte.  This
    is what [Sum256] does on every input of length 135 modulo 136, and what
    [Hasher.Sum256] does when the pending count is [rate - 1]. *)
Theorem padding_meets_at_last_rate_byte :
  (forall st, length st = 200%nat ->
     exists st1,
       Go.xor_at st (rate - 1) x01 = Some st1
       /\ st1 = Spec.xor_byte st 135 x01
       /\ Go.xor_at st1 (rate - 1) x80 = Some (Spec.xor_byte st 135 x81)
       /\ pad st (rate - 1) = Some (Spec.xor_byte st 135 x81))
  /\ (forall data, Go.len data mod rate = rate - 1 ->
        exists st tail st1,
          absorb_blocks (length data) zero_state data = Some (st, tail)
          /\ Go.len tail = rate - 1
          /\ xorIn st tail = Some st1
          /\ pad st1 (Go.len tail) = Some (Spec.xor_byte st1 135 x81)
          /\ Sum256 data
             = Some (firstn 32 (keccakF1600 (Spec.xor_byte st1 135 x81))))
  /\ (forall h, Hasher.well_typed h -> Hasher.absorbed h = rate - 1 ->
        exists st1,
          xorIn (Hasher.state h) (Hasher.pending h) = Some st1
          /\ pad st1 (Hasher.absorbed h) = Some (Spec.xor_byte st1 135 x81)
          /\ Hasher.Sum256 h
             = Some (firstn 32 (keccakF1600 (Spec.xor_byte st1 135 x81)), h)).
Proof.
  split; [|split].
  - intros st Hst. exists (Spec.xor_byte st 135 x01).
    change (rate - 1) with (Z.of_nat 135).
    rewrite !xor_at_spec by (rewrite ?xor_byte_length; lia).
    unfold pad. change (rate - 1) with (Z.of_nat 135).
    rewrite !xor_at_spec by (rewrite ?xor_byte_length; lia).
    rewrite xor_byte_01_80. auto.
  - intros data Hd.
    rewrite absorb_blocks_spec by (apply zero_state_length || lia).
    rewrite Sum256_hash, hash_finish.
    destruct (Spec.absorb (length data) zero_state data) as [st t] eqn:E.
    pose proof (spec_absorb_length _ _ _ _ _ zero_state_length E) as Hst.
    destruct (spec_absorb_tail (length data) zero_state data st t ltac:(lia) E)
      as [_ Ht].
    assert (Ht' : length t = 135%nat).
    { unfold rate, Go.len in Hd. rewrite Ht.
      apply Nat2Z.inj. rewrite Nat2Z.inj_mod. exact Hd. }
    exists st, t, (Spec.xor_bytes st t).
    split; [reflexivity|]. split; [unfold Go.len; rewrite Ht'; reflexivity|].
    split; [apply xorIn_xor_bytes; [exact Hst | lia]|].
    unfold Go.len, Spec.finish. rewrite Ht'.
    rewrite pad_spec by (rewrite ?xor_bytes_length; auto; lia).
    rewrite xor_byte_01_80. auto.
  - intros h W Ha.
    assert (I : Hasher.pending_ok h)
      by (unfold Hasher.pending_ok, rate in *; lia).
    pose proof (pending_length h (proj2 W) I) as Hl.
    unfold rate, Go.len in *.
    exists (Spec.xor_bytes (Hasher.state h) (Hasher.pending h)).
    split; [apply xorIn_xor_bytes; [apply W | lia]|].
    rewrite Hasher_Sum256_spec by assumption.
    unfold Spec.finish. replace (length (Hasher.pending h)) with 135%nat by lia.
    rewrite Ha. change (136 - 1) with (Z.of_nat 135).
    rewrite pad_spec by (rewrite ?xor_bytes_length; try apply W; lia).
    rewrite xor_byte_01_80. auto.
Qed.

(** C9. No operation panics, whatever the input: [Sum256] returns a 32-byte
    digest for every byte sequence; on a hasher with arrays of 200 and 136
    bytes and a pending count below [rate], [Write] returns a hasher of the
    same kind for every chunk and [Hasher.Sum256] returns a 32-byte digest;
    so no sequence of calls on a fresh hasher panics; and [xorIn] on a
    200-byte state returns a state for every data of at most [rate] bytes.
    A panic of the embedding is exactly an index or a slice bound out of
    range. *)
Theorem operations_total :
  (forall data, exists d, Sum256 data = Some d /\ length d = 32%nat)
  /\ (forall h p, Hasher.well_typed h -> Hasher.pending_ok h ->
        exists h',
          Hasher.Write h p = Some h'
          /\ Hasher.well_typed h' /\ Hasher.pending_ok h')
  /\ (forall h, Hasher.well_typed h -> Hasher.pending_ok h ->
        exists d, Hasher.Sum256 h = Some (d, h) /\ length d = 32%nat)
  /\ (forall cs, exists ds h, Hasher.run Hasher.zero cs = Some (ds, h))
  /\ (forall st data, length st = 200%nat -> Go.len data <= rate ->
        exists st', xorIn st data = Some st' /\ length st' = 200%nat).
Proof.
  split; [|split; [|split; [|split]]].
  - intros data. exists (Spec.hash data). split; [apply Sum256_hash|].
    rewrite hash_finish.
    destruct (Spec.absorb (length data) zero_state data) as [st t] eqn:E.
    apply finish_length.
    exact (spec_absorb_length _ _ _ _ _ zero_state_length E).
  - intros h p W I. destruct (Write_spec h p W I) as (h' & E & W' & I' & _).
    eauto.
  - intros h W I. eexists. split; [apply Hasher_Sum256_spec; assumption|].
    apply finish_length, W.
  - intros cs.
    destruct (run_total cs Hasher.zero zero_well_typed zero_pending_ok)
      as (ds & h & E & _).
    eauto.
  - intros st data Hst Hd. unfold rate, Go.len in Hd.
    exists (Spec.xor_bytes st data).
    split; [apply xorIn_xor_bytes; [exact Hst | lia]|].
    rewrite xor_bytes_length. exact Hst.
Qed.

(** C10. [Write] of an empty chunk changes nothing: on a hasher with a
    pending count below [rate] it returns the hasher as it was (state, buf
    and absorbed), so an empty write inserted anywhere in a sequence of calls
    changes no digest. *)
Theorem Write_empty_is_noop (h : Hasher.t) :
  Hasher.well_typed h -> Hasher.pending_ok h ->
  Hasher.Write h [] = Some h
  /\ (forall cs1 cs2,
        Hasher.run h (cs1 ++ Hasher.CallWrite [] :: cs2)
        = Hasher.run h (cs1 ++ cs2)).
Proof.
  intros W I. split; [apply Write_nil; assumption|].
  intros cs1 cs2. rewrite !run_app.
  destruct (run_total cs1 h W I) as (ds & h1 & E & W1 & I1). rewrite E.
  cbn [Hasher.run]. rewrite Write_nil by assumption. reflexivity.
Qed.

End Claims.

(** C3. With the standard Keccak-f[1600] as the permutation, [Sum256] of the
    empty byte sequence is c5d2460186f7233c927e7db2dcc703c0e500b653ca82273b7bfad8045d85a470
    and [Sum256] of the five ASCII bytes of hello is
    1c8aff950685c2ed4bc3174f3472287b56d9517b9c948127319a09a7a36deac8. *)
Theorem Sum256_known_vectors :
  option_map hex (@Sum256 Keccak_f_1600 [])
  = Some "c5d2460186f7233c927e7db2dcc703c0e500b653ca82273b7bfad8045d85a470"%string
  /\ option_map hex
       (@Sum256 Keccak_f_1600 (String.list_byte_of_string "hello"%string))
     = Some "1c8aff950685c2ed4bc3174f3472287b56d9517b9c948127319a09a7a36deac8"%string
  /\ @Sum256 Keccak_f_1600 [] = Some digest_empty
  /\ @Sum256 Keccak_f_1600 hello = Some digest_hello
  /\ length digest_empty = 32%nat /\ length digest_hello = 32%nat.
Proof. repeat split; vm_compute; reflexivity. Qed.

(** ** The tests of the package, evaluated

    [TestSum256LargeData], [TestHasherStreaming] on a shorter text and
    [TestHasherMultiBlock], run on the embedding with the standard
    permutation. *)

Example Sum256LargeData_evaluated :
  let data := test_data 500 (fun i => i) in
  option_map fst
    (h <- Hasher.Write (P := Keccak_f_1600) Hasher.zero data ;;
     Hasher.Sum256 h)
  = Sum256 data.
Proof. vm_compute. reflexivity. Qed.

Example HasherStreaming_evaluated :
  option_map fst
    (h <- Hasher.write_all (P := Keccak_f_1600) Hasher.zero
            (map (fun b => [b]) (hello ++ hello ++ hello)) ;;
     Hasher.Sum256 h)
  = Sum256 (hello ++ hello ++ hello).
Proof. vm_compute. reflexivity. Qed.

Example HasherMultiBlock_evaluated :
  let data := test_data (136 * 2 + 50) (fun i => i * 7) in
  length (chunks_of 322 37 data) = 9%nat
  /\ concat (chunks_of 322 37 data) = data
  /\ option_map fst
       (h <- Hasher.write_all (P := Keccak_f_1600) Hasher.zero
               (chunks_of 322 37 data) ;;
        Hasher.Sum256 h)
     = Sum256 data.
Proof. vm_compute. repeat split. Qed.

(** ** The theorems at concrete inputs *)

Lemma Sum256_non_destructive_witness :
  Hasher.Sum256 (P := Keccak_f_1600) hasher_hello
  = Some (digest_hello, hasher_hello)
  /\ exists h2 d2,
       Hasher.write_all (P := Keccak_f_1600) hasher_hello [hello] = Some h2
       /\ Hasher.Sum256 h2 = Some (d2, h2)
       /\ Sum256 (concat [hello] ++ concat [hello]) = Some d2.
Proof.
  split; [vm_compute; reflexivity|].
  apply (proj2 (proj2 (proj2
           (Sum256_non_destructive (P := Keccak_f_1600)
              hasher_hello digest_hello hasher_hello
              ltac:(vm_compute; reflexivity))))
           [hello] [hello]).
  vm_compute; reflexivity.
Defined.

Lemma Reset_equals_fresh_witness :
  length (Hasher.buf hasher_hello) = 136%nat
  /\ Hasher.buf (Hasher.Reset hasher_hello) = hello ++ repeat Byte.x00 131
  /\ forall cs, exists ds k1 k2,
       Hasher.run (P := Keccak_f_1600) (Hasher.Reset hasher_hello) cs
       = Some (ds, k1)
       /\ Hasher.run Hasher.zero cs = Some (ds, k2).
Proof.
  split; [reflexivity|].
  pose proof (Reset_equals_fresh (P := Keccak_f_1600) hasher_hello eq_refl)
    as (_ & _ & Hb & Hr).
  split; [exact Hb | exact Hr].
Defined.

Lemma pending_count_invariant_witness :
  Hasher.reachable (P := Keccak_f_1600) hasher_hello
  /\ 0 <= Hasher.absorbed hasher_hello < rate.
Proof.
  assert (R : Hasher.reachable (P := Keccak_f_1600) hasher_hello).
  { apply (Hasher.reach_Write Hasher.zero hello hasher_hello Hasher.reach_zero).
    vm_compute; reflexivity. }
  split; [exact R|].
  exact (proj1 (pending_count_invariant hasher_hello R)).
Defined.

Lemma xorIn_bytewise_witness :
  length zero_state = 200%nat /\ Go.len hello <= rate
  /\ xorIn zero_state hello = Some (Spec.xor_bytes zero_state hello).
Proof.
  assert (L : Go.len hello <= rate) by (vm_compute; discriminate).
  split; [reflexivity|]. split; [exact L|].
  destruct (xorIn_bytewise zero_state hello eq_refl L) as (st' & E & -> & _).
  exact E.
Defined.

Lemma padding_meets_at_last_rate_byte_witness :
  length zero_state = 200%nat
  /\ pad zero_state (rate - 1) = Some (Spec.xor_byte zero_state 135 x81)
  /\ Go.len (repeat Byte.xff 135) mod rate = rate - 1
  /\ exists st1,
       Sum256 (P := Keccak_f_1600) (repeat Byte.xff 135)
       = Some (firstn 32 (keccakF1600 (Spec.xor_byte st1 135 x81))).
Proof.
  pose proof (padding_meets_at_last_rate_byte (P := Keccak_f_1600))
    as (H1 & H2 & _).
  split; [reflexivity|].
  split.
  { destruct (H1 zero_state eq_refl) as (st1 & _ & _ & _ & E). exact E. }
  split; [reflexivity|].
  destruct (H2 (repeat Byte.xff 135) eq_refl) as (st & t & st1 & _ & _ & _ & _ & E).
  exists st1. exact E.
Defined.

Lemma operations_total_witness :
  Hasher.well_typed hasher_hello /\ Hasher.pending_ok hasher_hello
  /\ (exists h', Hasher.Write (P := Keccak_f_1600) hasher_hello hello = Some h')
  /\ (exists d, Hasher.Sum256 (P := Keccak_f_1600) hasher_hello
                = Some (d, hasher_hello)).
Proof.
  assert (W : Hasher.well_typed hasher_hello) by (split; reflexivity).
  assert (I : Hasher.pending_ok hasher_hello)
    by (split; [discriminate | reflexivity]).
  pose proof (operations_total (P := Keccak_f_1600)) as (_ & Hw & Hs & _).
  split; [exact W|]. split; [exact I|]. split.
  - destruct (Hw hasher_hello hello W I) as (h' & E & _). exists h'. exact E.
  - destruct (Hs hasher_hello W I) as (d & E & _). exists d. exact E.
Defined.

Lemma Write_empty_is_noop_witness :
  Hasher.well_typed hasher_hello /\ Hasher.pending_ok hasher_hello
  /\ Hasher.Write (P := Keccak_f_1600) hasher_hello [] = Some hasher_hello.
Proof.
  assert (W : Hasher.well_typed hasher_hello) by (split; reflexivity).
  assert (I : Hasher.pending_ok hasher_hello)
    by (split; [discriminate | reflexivity]).
  split; [exact W|]. split; [exact I|].
  exact (proj1 (Write_empty_is_noop hasher_hello W I)).
Defined.

(** * Further properties of the code *)

(** ** le64 *)

Lemma le64_decodes_first_eight_aux (b : list byte) :
  (8 <= length b)%nat -> exists w, le64 b = Some w.
Proof.
  intros H.
  assert (L : length (firstn 8 b) = 8%nat) by (rewrite length_firstn; lia).
  pose proof (le64_app (firstn 8 b) (skipn 8 b) L) as E.
  rewrite firstn_skipn in E. eauto.
Qed.

(** X1. On a slice of at least 8 bytes [le64] returns a value below 2^64
    whose 8 little-endian bytes are the first 8 bytes of the slice; so it
    determines those bytes and ignores the rest. *)
Theorem le64_decodes_first_eight (b : list byte) :
  (8 <= length b)%nat ->
  exists w,
    le64 b = Some w /\ 0 <= w < 2 ^ 64 /\ le_split 8 w = firstn 8 b.
Proof.
  intros H.
  assert (L : length (firstn 8 b) = 8%nat) by (rewrite length_firstn; lia).
  pose proof (le64_app (firstn 8 b) (skipn 8 b) L) as E.
  rewrite firstn_skipn in E.
  exists (le_combine (firstn 8 b)). split; [exact E|]. split.
  - pose proof (le_combine_bound (firstn 8 b)) as B. rewrite L in B. exact B.
  - apply split_le_combine'. exact L.
Qed.

(** X2. [le64] panics exactly on slices shorter than 8 bytes. *)
Theorem le64_panics_iff_short (b : list byte) :
  le64 b = None <-> (length b < 8)%nat.
Proof.
  split.
  - intros H. destruct (Nat.lt_ge_cases (length b) 8) as [|L]; [assumption|].
    destruct (le64_decodes_first_eight_aux b L) as (w & E). congruence.
  - apply le64_short.
Qed.

(** X3. [le64] undoes the little-endian encoding: on the 8 bytes of [w],
    followed by anything, it returns [w] modulo 2^64. *)
Theorem le64_of_encoded (w : Z) (rest : list byte) :
  le64 (le_split 8 w ++ rest) = Some (w mod 2 ^ 64).
Proof.
  rewrite le64_app by apply length_le_split.
  rewrite le_combine_split. reflexivity.
Qed.

(** ** xorIn: bounds, involution, capacity *)

Lemma for_range_split {S} (k1 k2 : nat) i (body : Z -> S -> option S) s :
  Go.for_range (k1 + k2) i body s =
  (s' <- Go.for_range k1 i body s ;; Go.for_range k2 (i + Z.of_nat k1) body s').
Proof.
  revert i s. induction k1 as [|k1 IH]; intros i s.
  - cbn. f_equal. lia.
  - cbn [Nat.add Go.for_range]. destruct (body i s) as [s'|]; [|reflexivity].
    rewrite IH. destruct (Go.for_range k1 (i + 1) body s'); [|reflexivity].
    f_equal. lia.
Qed.

(** Lane 25 does not exist. *)
Lemma xorIn_lane_25 data st : xorIn_lane data 25 st = None.
Proof.
  unfold xorIn_lane.
  destruct (Go.slice data (8 * 25) (Go.len data)) as [d|]; [|reflexivity].
  destruct (le64 d); reflexivity.
Qed.

(** Byte 200 does not exist. *)
Lemma xorIn_byte_200 data st :
  length st = 200%nat -> xorIn_byte data 200 st = None.
Proof.
  intros H. unfold xorIn_byte.
  destruct (Go.index data 200); [|reflexivity].
  unfold Go.xor_at, Go.index, Go.in_range, Go.len. rewrite H. reflexivity.
Qed.

Lemma xorIn_too_long (state data : list byte) :
  length state = 200%nat -> (200 < length data)%nat ->
  xorIn state data = None.
Proof.
  intros Hst Hd. unfold xorIn, Go.for_loop.
  rewrite shiftr3_div, shiftl3_mul, Z.sub_0_r.
  pose proof (Z.div_mod (Go.len data) 8 ltac:(lia)) as D.
  pose proof (Z.mod_pos_bound (Go.len data) 8 ltac:(lia)) as B.
  unfold Go.len in *.
  pose proof (xorIn_lanes 25 0 [] [] state data eq_refl eq_refl) as L.
  cbn [app Z.of_nat] in L. specialize (L ltac:(lia) ltac:(lia) ltac:(lia)).
  destruct (Z.lt_ge_cases (Z.of_nat (length data) / 8) 26) as [Hn|Hn].
  - (* 25 lanes, then the byte loop reaches byte 200 *)
    replace (Z.of_nat (length data) / 8) with 25 by lia.
    change (Z.to_nat 25) with 25%nat. rewrite L.
    replace (Z.to_nat (Z.of_nat (length data) - 25 * 8))
      with (S (length data - 201)) by lia.
    cbn [Go.for_range].
    rewrite xorIn_byte_200 by (rewrite xor_bytes_length; exact Hst).
    reflexivity.
  - (* the lane loop reaches lane 25 *)
    replace (Z.to_nat (Z.of_nat (length data) / 8))
      with (25 + S (Z.to_nat (Z.of_nat (length data) / 8) - 26))%nat by lia.
    rewrite for_range_split, L.
    cbn [Go.for_range]. rewrite xorIn_lane_25. reflexivity.
Qed.

(** X4. On a 200-byte state [xorIn] panics exactly when the data is longer
    than the state: past 200 bytes either the lane loop asks for lane 25 or
    the byte loop for byte 200. *)
Theorem xorIn_panics_iff_too_long (state data : list byte) :
  length state = 200%nat ->
  (xorIn state data = None <-> 200 < Go.len data).
Proof.
  intros Hst. unfold Go.len. split.
  - intros H. destruct (Nat.le_gt_cases (length data) 200) as [L|L]; [|lia].
    rewrite xorIn_xor_bytes in H by assumption. discriminate.
  - intros H. apply xorIn_too_long; [exact Hst | lia].
Qed.

Lemma byte_xor_involutive (a b : byte) : byte.xor (byte.xor a b) b = a.
Proof.
  apply byte.unsigned_inj. unfold byte.xor.
  rewrite !byte.unsigned_of_Z. unfold byte.wrap.
  rewrite <- (byte.wrap_unsigned a) at 2. unfold byte.wrap.
  rewrite <- !Z.land_ones by lia.
  bits.
Qed.

Lemma xor_bytes_involutive st : forall d,
  Spec.xor_bytes (Spec.xor_bytes st d) d = st.
Proof.
  induction st as [|s st IH]; intros [|b d]; cbn; try reflexivity.
  rewrite byte_xor_involutive, IH. reflexivity.
Qed.

(** X5. [xorIn] is an involution: XORing the same data (of at most 200
    bytes) into the state a second time gives the state back. *)
Theorem xorIn_twice (state data : list byte) :
  length state = 200%nat -> Go.len data <= 200 ->
  (s <- xorIn state data ;; xorIn s data) = Some state.
Proof.
  intros Hst Hd. unfold Go.len in Hd.
  rewrite xorIn_xor_bytes by (auto; lia).
  rewrite xorIn_xor_bytes by (rewrite ?xor_bytes_length; auto; lia).
  rewrite xor_bytes_involutive. reflexivity.
Qed.

Lemma skipn_xor_bytes st : forall d n,
  (length d <= n)%nat -> skipn n (Spec.xor_bytes st d) = skipn n st.
Proof.
  induction st as [|s st IH]; intros [|b d] [|n] H; cbn in *;
    try reflexivity; try lia.
  apply IH. lia.
Qed.

Lemma skipn_xor_byte st : forall i n b,
  (i < n)%nat -> skipn n (Spec.xor_byte st i b) = skipn n st.
Proof.
  induction st as [|s st IH]; intros [|i] [|n] b H; cbn in *;
    try reflexivity; try lia.
  apply IH. lia.
Qed.

(** X6. Absorbing and padding never write the capacity: for data of at most
    [rate] bytes and a padding position below [rate], [xorIn] followed by the
    two padding XORs returns a 200-byte state whose bytes from index [rate]
    on are those of the state it started from. *)
Theorem capacity_untouched (state data : list byte) (pos : Z) :
  length state = 200%nat -> Go.len data <= rate -> 0 <= pos < rate ->
  exists s2,
    (s1 <- xorIn state data ;; pad s1 pos) = Some s2
    /\ length s2 = 200%nat
    /\ skipn 136 s2 = skipn 136 state.
Proof.
  intros Hst Hd Hp. unfold rate, Go.len in *.
  rewrite xorIn_xor_bytes by (auto; lia).
  replace pos with (Z.of_nat (Z.to_nat pos)) by lia.
  rewrite pad_spec by (rewrite ?xor_bytes_length; auto; lia).
  eexists. split; [reflexivity|].
  rewrite !xor_byte_length, xor_bytes_length.
  rewrite !skipn_xor_byte, skipn_xor_bytes by lia. auto.
Qed.

(** ** The padding is unambiguous *)

Lemma byte_xor_comm (a b : byte) : byte.xor a b = byte.xor b a.
Proof. unfold byte.xor. rewrite Z.lxor_comm. reflexivity. Qed.

Lemma byte_xor_cancel_r (a b c : byte) :
  byte.xor a c = byte.xor b c -> a = b.
Proof.
  intros H. rewrite <- (byte_xor_involutive a c), H.
  apply byte_xor_involutive.
Qed.

Lemma byte_xor_cancel_l (a b c : byte) :
  byte.xor a b = byte.xor a c -> b = c.
Proof.
  rewrite (byte_xor_comm a b), (byte_xor_comm a c). apply byte_xor_cancel_r.
Qed.

Lemma byte_xor_01_changes (x : byte) : byte.xor x x01 <> x.
Proof. destruct x; vm_compute; discriminate. Qed.

Lemma nth_xor_byte_same st : forall i b,
  nth_error (Spec.xor_byte st i b) i
  = option_map (fun x => byte.xor x b) (nth_error st i).
Proof.
  induction st as [|s st IH]; intros [|i] b; cbn; try reflexivity. apply IH.
Qed.

Lemma nth_xor_byte_other st : forall i j b,
  i <> j -> nth_error (Spec.xor_byte st i b) j = nth_error st j.
Proof.
  induction st as [|s st IH]; intros [|i] [|j] b H; cbn; try reflexivity.
  - contradiction.
  - apply IH. congruence.
Qed.

(** The state handed to the last permutation. *)
Lemma padded_eq (st t : list byte) :
  length st = 200%nat -> (length t < 136)%nat ->
  (s <- xorIn st t ;; pad s (Go.len t))
  = Some (Spec.xor_byte
            (Spec.xor_byte (Spec.xor_bytes st t) (length t) Byte.x01)
            135 Byte.x80).
Proof.
  intros Hst Ht. rewrite xorIn_xor_bytes by (auto; lia).
  unfold Go.len. apply pad_spec; [rewrite xor_bytes_length; exact Hst | exact Ht].
Qed.

(** Byte [length t2] tells a shorter tail [t1] from [t2]: only [t2] has the
    0x01 there. *)
Lemma padded_differ (st t1 t2 : list byte) :
  length st = 200%nat -> (length t1 < length t2)%nat ->
  (length t2 < 136)%nat ->
  Spec.xor_byte (Spec.xor_byte (Spec.xor_bytes st t1) (length t1) Byte.x01)
                135 Byte.x80
  <> Spec.xor_byte (Spec.xor_byte (Spec.xor_bytes st t2) (length t2) Byte.x01)
                   135 Byte.x80.
Proof.
  intros Hst H12 H2 E.
  apply (f_equal (fun l => nth_error l (length t2))) in E.
  destruct (nth_error st (length t2)) as [x|] eqn:Ex;
    [|apply nth_error_None in Ex; lia].
  destruct (Nat.eq_dec (length t2) 135) as [H135|H135].
  - rewrite H135 in E, Ex, H12. rewrite !nth_xor_byte_same in E.
    rewrite (nth_xor_byte_other _ (length t1) 135) in E by lia.
    rewrite !xor_bytes_nth_high in E by lia. rewrite Ex in E.
    cbn in E. injection E as E. apply byte_xor_cancel_r in E.
    symmetry in E. exact (byte_xor_01_changes x E).
  - rewrite !(nth_xor_byte_other _ 135) in E by lia.
    rewrite nth_xor_byte_other in E by lia.
    rewrite nth_xor_byte_same in E.
    rewrite !xor_bytes_nth_high in E by lia. rewrite Ex in E.
    cbn in E. injection E as E.
    symmetry in E. exact (byte_xor_01_changes x E).
Qed.

(** X7. The padding is unambiguous: from the same 200-byte state, two tails
    of fewer than [rate] bytes that reach the same padded state (the state
    handed to the last permutation) are the same tail.  So two inputs with
    the same full blocks collide only through the permutation. *)
Theorem padding_injective (state t1 t2 : list byte) :
  length state = 200%nat -> Go.len t1 < rate -> Go.len t2 < rate ->
  (s <- xorIn state t1 ;; pad s (Go.len t1))
  = (s <- xorIn state t2 ;; pad s (Go.len t2)) ->
  t1 = t2.
Proof.
  intros Hst H1 H2 E. unfold rate, Go.len in H1, H2.
  rewrite !padded_eq in E by (auto; lia). injection E as E.
  destruct (Nat.lt_trichotomy (length t1) (length t2)) as [L|[L|L]].
  - exfalso. exact (padded_differ state t1 t2 Hst L ltac:(lia) E).
  - apply nth_error_ext. intros j.
    destruct (Nat.lt_ge_cases j (length t1)) as [Hj|Hj].
    + apply (f_equal (fun l => nth_error l j)) in E.
      rewrite !(nth_xor_byte_other _ 135) in E by lia.
      rewrite !nth_xor_byte_other in E by lia.
      destruct (nth_error state j) as [x|] eqn:Ex;
        [|apply nth_error_None in Ex; lia].
      destruct (nth_error t1 j) as [y1|] eqn:E1;
        [|apply nth_error_None in E1; lia].
      destruct (nth_error t2 j) as [y2|] eqn:E2;
        [|apply nth_error_None in E2; lia].
      rewrite (xor_bytes_nth _ _ _ _ _ Ex E1) in E.
      rewrite (xor_bytes_nth _ _ _ _ _ Ex E2) in E.
      injection E as E. apply byte_xor_cancel_l in E. congruence.
    + rewrite (proj2 (nth_error_None t1 j)) by lia.
      rewrite (proj2 (nth_error_None t2 j)) by lia. reflexivity.
  - exfalso. symmetry in E.
    exact (padded_differ state t2 t1 Hst L ltac:(lia) E).
Qed.

(** ** The absorb loop and whole-block inputs *)

Section FurtherSponge.

Context {P : PermutationCore}.

Lemma spec_absorb_suffix fuel : forall st d st' t,
  (length d < 136 * S fuel)%nat -> Spec.absorb fuel st d = (st', t) ->
  t = skipn (length d - length d mod 136) d.
Proof.
  induction fuel as [|f IH]; intros st d st' t Hd H.
  - rewrite spec_absorb_small in H by lia. injection H as <- <-.
    rewrite Nat.mod_small, Nat.sub_diag by lia. reflexivity.
  - destruct (Nat.lt_ge_cases (length d) 136) as [Hs|Hl].
    + rewrite spec_absorb_small in H by lia. injection H as <- <-.
      rewrite Nat.mod_small, Nat.sub_diag by lia. reflexivity.
    + destruct (split_at d 136) as (blk & rest & -> & Hb); [lia|].
      rewrite length_app in *. rewrite spec_absorb_block in H by exact Hb.
      apply IH in H; [|lia]. rewrite H, Hb.
      replace ((136 + length rest) mod 136)%nat with (length rest mod 136)%nat.
      2:{ replace (136 + length rest)%nat with (length rest + 1 * 136)%nat
            by lia.
          rewrite Nat.Div0.mod_add. reflexivity. }
      pose proof (Nat.Div0.mod_le (length rest) 136).
      replace (136 + length rest - length rest mod 136)%nat
        with (length blk + (length rest - length rest mod 136))%nat by lia.
      rewrite skipn_app, (skipn_all2 blk) by lia. cbn [app]. f_equal. lia.
Qed.

(** X8. The absorb loop consumes whole blocks from the front and nothing
    else: started on a 200-byte state it returns a 200-byte state and, as
    unconsumed data, exactly the last [len(data) mod rate] bytes. *)
Theorem absorb_loop_leaves_tail (state data : list byte) :
  length state = 200%nat ->
  exists state' tail,
    absorb_blocks (length data) state data = Some (state', tail)
    /\ length state' = 200%nat
    /\ Go.len tail = Go.len data mod rate
    /\ tail = skipn (length data - length data mod 136) data.
Proof.
  intros Hst. rewrite absorb_blocks_spec by (auto; lia).
  destruct (Spec.absorb (length data) state data) as [st' t] eqn:E.
  exists st', t. split; [reflexivity|].
  split; [exact (spec_absorb_length _ _ _ _ _ Hst E)|].
  destruct (spec_absorb_tail (length data) state data st' t ltac:(lia) E)
    as [_ Ht].
  split.
  - unfold Go.len, rate. rewrite Ht, Nat2Z.inj_mod. reflexivity.
  - exact (spec_absorb_suffix (length data) state data st' t ltac:(lia) E).
Qed.

(** X9. When the input is a whole number of blocks (the empty input
    included) nothing is left for the last block but the padding: the loop
    returns an empty tail, and the digest is squeezed from the permutation
    of the absorbed state with 0x01 XORed into byte 0 and 0x80 into byte
    [rate - 1]. *)
Theorem Sum256_whole_blocks (data : list byte) :
  Go.len data mod rate = 0 ->
  exists st,
    absorb_blocks (length data) zero_state data = Some (st, [])
    /\ Sum256 data
       = Some (firstn 32 (keccakF1600
                 (Spec.xor_byte (Spec.xor_byte st 0 x01) 135 x80))).
Proof.
  intros Hd. rewrite absorb_blocks_spec by (apply zero_state_length || lia).
  rewrite Sum256_hash, hash_finish.
  destruct (Spec.absorb (length data) zero_state data) as [st t] eqn:E.
  destruct (spec_absorb_tail (length data) zero_state data st t ltac:(lia) E)
    as [_ Ht].
  assert (t = []) as ->.
  { assert (L : length t = 0%nat).
    { unfold rate, Go.len in Hd. rewrite Ht.
      apply Nat2Z.inj. rewrite Nat2Z.inj_mod. exact Hd. }
    destruct t; [reflexivity | discriminate]. }
  exists st. split; [reflexivity|].
  unfold Spec.finish. rewrite xor_bytes_nil_r. reflexivity.
Qed.

(** ** Write *)

(** X10. [Write] advances the pending count by the chunk length modulo
    [rate]; and a chunk that does not complete a block is only buffered: the
    sponge state is untouched and the chunk is appended to the pending
    bytes. *)
Theorem Write_pending_count (h : Hasher.t) (p : list byte) :
  Hasher.well_typed h -> Hasher.pending_ok h ->
  exists h',
    Hasher.Write h p = Some h'
    /\ Hasher.absorbed h' = (Hasher.absorbed h + Go.len p) mod rate
    /\ (Hasher.absorbed h + Go.len p < rate ->
        Hasher.state h' = Hasher.state h
        /\ Hasher.pending h' = Hasher.pending h ++ p).
Proof.
  intros W I. destruct (Write_spec h p W I) as (h' & E & W' & I' & S).
  exists h'. split; [exact E|].
  pose proof (pending_length h (proj2 W) I) as Hl.
  pose proof (pending_length h' (proj2 W') I') as Hl'.
  symmetry in S.
  destruct (spec_absorb_tail (length (Hasher.pending h ++ p)) (Hasher.state h)
              (Hasher.pending h ++ p) (Hasher.state h') (Hasher.pending h')
              ltac:(lia) S) as [_ Ht].
  unfold Go.len, rate, Hasher.pending_ok in *. split.
  - rewrite <- Hl', Ht, Nat2Z.inj_mod, length_app. f_equal. lia.
  - intros Hlt. rewrite spec_absorb_small in S by (rewrite length_app; lia).
    injection S as S1 S2. auto.
Qed.

(** X11. Block-aligned writes bypass the pending buffer: on a hasher with
    nothing pending, a chunk of a whole number of blocks is absorbed straight
    from the chunk; [buf] is left as it was and the pending count stays 0. *)
Theorem Write_whole_blocks_skips_buffer (h : Hasher.t) (p : list byte) :
  Hasher.well_typed h -> Hasher.absorbed h = 0 -> Go.len p mod rate = 0 ->
  exists h',
    Hasher.Write h p = Some h'
    /\ Hasher.buf h' = Hasher.buf h
    /\ Hasher.absorbed h' = 0
    /\ (Hasher.state h', [])
       = Spec.absorb (length p) (Hasher.state h) p.
Proof.
  intros [Hs Hb] Ha Hp. unfold Hasher.Write.
  rewrite topup_idle by lia. unfold Hasher.Write_blocks.
  rewrite absorb_blocks_spec by (auto; lia).
  destruct (Spec.absorb (length p) (Hasher.state h) p) as [s t] eqn:E.
  destruct (spec_absorb_tail (length p) (Hasher.state h) p s t ltac:(lia) E)
    as [_ Ht].
  assert (t = []) as ->.
  { assert (L : length t = 0%nat).
    { unfold rate, Go.len in Hp. rewrite Ht.
      apply Nat2Z.inj. rewrite Nat2Z.inj_mod. exact Hp. }
    destruct t; [reflexivity | discriminate]. }
  cbn. eexists. split; [reflexivity|]. cbn. auto.
Qed.

(** X12. Chunk boundaries do not matter on any hasher: writing [a] and then
    [b] leaves the same sponge state, pending count and pending bytes as
    writing [a ++ b] at once, hence the same digest. *)
Theorem Write_splits (h : Hasher.t) (a b : list byte) :
  Hasher.well_typed h -> Hasher.pending_ok h ->
  exists h1 h2 h12,
    Hasher.Write h a = Some h1
    /\ Hasher.Write h1 b = Some h2
    /\ Hasher.Write h (a ++ b) = Some h12
    /\ Hasher.state h2 = Hasher.state h12
    /\ Hasher.absorbed h2 = Hasher.absorbed h12
    /\ Hasher.pending h2 = Hasher.pending h12
    /\ option_map fst (Hasher.Sum256 h2) = option_map fst (Hasher.Sum256 h12).
Proof.
  intros W I.
  destruct (Write_spec h a W I) as (h1 & E1 & W1 & I1 & S1).
  destruct (Write_spec h1 b W1 I1) as (h2 & E2 & W2 & I2 & S2).
  destruct (Write_spec h (a ++ b) W I) as (h12 & E12 & W12 & I12 & S12).
  exists h1, h2, h12. split; [exact E1|]. split; [exact E2|].
  split; [exact E12|].
  assert (S : (Hasher.state h2, Hasher.pending h2)
              = (Hasher.state h12, Hasher.pending h12)).
  { rewrite S2, S12, app_assoc. symmetry.
    eapply spec_absorb_app; [| | |symmetry; exact S1]; lia. }
  injection S as Hst Hp.
  split; [exact Hst|]. split.
  - rewrite <- (pending_length h2 (proj2 W2) I2).
    rewrite <- (pending_length h12 (proj2 W12) I12). rewrite Hp. reflexivity.
  - split; [exact Hp|].
    rewrite !Hasher_Sum256_spec by assumption. cbn. rewrite Hst, Hp.
    reflexivity.
Qed.

(** ** Clients *)

Lemma run_streams cs : forall h acc,
  Hasher.well_typed h -> Hasher.pending_ok h ->
  (Hasher.state h, Hasher.pending h)
  = Spec.absorb (length acc) zero_state acc ->
  exists h',
    Hasher.run h cs = Some (map Spec.hash (streams acc cs), h')
    /\ Hasher.well_typed h' /\ Hasher.pending_ok h'.
Proof.
  induction cs as [|c cs IH]; intros h acc W I S.
  - exists h. auto.
  - destruct c; cbn [Hasher.run streams].
    + destruct (Write_spec h p W I) as (h1 & E1 & W1 & I1 & S1).
      rewrite E1. apply IH; try assumption.
      rewrite S1. symmetry.
      eapply spec_absorb_app; [| | |symmetry; exact S]; lia.
    + rewrite Hasher_Sum256_spec by assumption.
      destruct (IH h acc W I S) as (h' & E & W' & I').
      rewrite E. exists h'. split; [|auto].
      cbn [map]. rewrite hash_finish, <- S. reflexivity.
    + apply IH.
      * apply Reset_well_typed, W.
      * apply Reset_pending_ok.
      * reflexivity.
Qed.

(** X13. What a hasher computes, for every client: no sequence of [Write],
    [Sum256] and [Reset] calls on a fresh hasher panics, and each [Sum256]
    call returns the one-shot digest of the bytes written since the last
    [Reset] (since the start, if there was none). *)
Theorem run_digests (cs : list Hasher.call) :
  exists ds h,
    Hasher.run Hasher.zero cs = Some (ds, h)
    /\ map Some ds = map Sum256 (streams [] cs).
Proof.
  destruct (run_streams cs Hasher.zero [] zero_well_typed zero_pending_ok
              eq_refl) as (h & E & _).
  exists (map Spec.hash (streams [] cs)), h. split; [exact E|].
  rewrite map_map. apply map_ext. intros a. symmetry. apply Sum256_hash.
Qed.

Lemma streams_bytes data : forall acc cs,
  streams acc (map (fun b => Hasher.CallWrite [b]) data ++ cs)
  = streams (acc ++ data) cs.
Proof.
  induction data as [|b data IH]; intros acc cs; cbn [map app streams].
  - rewrite app_nil_r. reflexivity.
  - rewrite IH, <- app_assoc. reflexivity.
Qed.

(** X14. The checks of the fuzz target that compare the package with itself
    hold for every input: writing [data] at once and taking the digest, then
    resetting the same hasher, writing [data] byte by byte and taking the
    digest, returns twice the digest [Sum256] returns on [data]. *)
Theorem FuzzSum256_consistent (data : list byte) :
  exists d h,
    Hasher.run Hasher.zero (fuzz_calls data) = Some ([d; d], h)
    /\ Sum256 data = Some d.
Proof.
  destruct (run_streams (fuzz_calls data) Hasher.zero [] zero_well_typed
              zero_pending_ok eq_refl) as (h & E & _).
  exists (Spec.hash data), h. split; [|apply Sum256_hash].
  rewrite E. unfold fuzz_calls. cbn [app streams].
  rewrite streams_bytes. reflexivity.
Qed.

(** X15. The bytes of [buf] at or past the pending count never reach a
    digest: two hashers with the same sponge state and the same pending
    bytes return the same digests on every sequence of calls, whatever else
    their buffers hold. *)
Theorem stale_buffer_bytes_ignored (h1 h2 : Hasher.t) (cs : list Hasher.call) :
  Hasher.well_typed h1 -> Hasher.pending_ok h1 ->
  Hasher.well_typed h2 -> Hasher.pending_ok h2 ->
  Hasher.state h1 = Hasher.state h2 ->
  Hasher.pending h1 = Hasher.pending h2 ->
  exists ds k1 k2,
    Hasher.run h1 cs = Some (ds, k1) /\ Hasher.run h2 cs = Some (ds, k2).
Proof.
  intros W1 I1 W2 I2 Hs Hp.
  destruct (similar_digests cs h1 h2) as (ds & k1 & k2 & E1 & E2 & _).
  - repeat split; try apply W1; try apply W2; try apply I1; try apply I2;
      assumption.
  - eauto.
Qed.

End FurtherSponge.

(** ** The choice of the permutation routine *)

Lemma spec_absorb_ext (P Q : PermutationCore) :
  (forall a, length a = 200%nat -> @keccakF1600 P a = @keccakF1600 Q a) ->
  forall fuel st d, length st = 200%nat ->
    @Spec.absorb P fuel st d = @Spec.absorb Q fuel st d.
Proof.
  intros H. induction fuel as [|f IH]; intros st d Hst; cbn [Spec.absorb].
  - reflexivity.
  - destruct (136 <=? length d)%nat; [|reflexivity].
    rewrite H by (rewrite xor_bytes_length; exact Hst).
    apply IH. apply keccakF1600_length. rewrite xor_bytes_length. exact Hst.
Qed.

Lemma spec_hash_ext (P Q : PermutationCore) :
  (forall a, length a = 200%nat -> @keccakF1600 P a = @keccakF1600 Q a) ->
  forall data, @Spec.hash P data = @Spec.hash Q data.
Proof.
  intros H data. rewrite !hash_finish.
  rewrite (spec_absorb_ext P Q H) by apply zero_state_length.
  destruct (@Spec.absorb Q (length data) zero_state data) as [st t] eqn:E.
  pose proof (spec_absorb_length _ _ _ _ _ zero_state_length E) as Hst.
  unfold Spec.finish. rewrite H; [reflexivity|].
  rewrite !xor_byte_length, xor_bytes_length. exact Hst.
Qed.

(** X16. The sponge uses the permutation on 200-byte states only and through
    its results only: if the NEON routine and the generic one agree on every
    200-byte array, then whichever [useSHA3] selects, [Sum256] returns the
    digest it returns with the generic routine, and so does every [Sum256]
    call of every sequence of hasher calls. *)
Theorem arm64_dispatch_irrelevant (useSHA3 : bool) (NEON Generic : PermutationCore) :
  (forall a, length a = 200%nat ->
     @keccakF1600 NEON a = @keccakF1600 Generic a) ->
  (forall data,
     @Sum256 (arm64_core useSHA3 NEON Generic) data = @Sum256 Generic data)
  /\ (forall cs,
        option_map fst
          (@Hasher.run (arm64_core useSHA3 NEON Generic) Hasher.zero cs)
        = option_map fst (@Hasher.run Generic Hasher.zero cs)).
Proof.
  intros H.
  assert (HA : forall a, length a = 200%nat ->
             @keccakF1600 (arm64_core useSHA3 NEON Generic) a
             = @keccakF1600 Generic a).
  { intros a Ha. cbn. unfold keccakF1600_arm64.
    destruct useSHA3; [apply H; exact Ha | reflexivity]. }
  pose proof (spec_hash_ext _ _ HA) as HH.
  split.
  - intros data. rewrite !Sum256_hash, HH. reflexivity.
  - intros cs.
    destruct (@run_streams (arm64_core useSHA3 NEON Generic) cs Hasher.zero []
                zero_well_typed zero_pending_ok eq_refl) as (h1 & E1 & _).
    destruct (@run_streams Generic cs Hasher.zero []
                zero_well_typed zero_pending_ok eq_refl) as (h2 & E2 & _).
    rewrite E1, E2. cbn. f_equal. apply map_ext. exact HH.
Qed.

(** ** The further properties at concrete inputs *)

Lemma le64_decodes_first_eight_witness :
  (8 <= length (hello ++ hello))%nat
  /\ exists w, le64 (hello ++ hello) = Some w
               /\ le_split 8 w = firstn 8 (hello ++ hello).
Proof.
  assert (L : (8 <= length (hello ++ hello))%nat) by (cbn; lia).
  split; [exact L|].
  destruct (le64_decodes_first_eight (hello ++ hello) L) as (w & E & _ & R).
  exists w. split; [exact E | exact R].
Defined.

Lemma xorIn_panics_iff_too_long_witness :
  length zero_state = 200%nat
  /\ xorIn zero_state (repeat Byte.x01 201) = None
  /\ xorIn zero_state (repeat Byte.x01 208) = None.
Proof.
  split; [reflexivity|]. split.
  - apply (proj2 (xorIn_panics_iff_too_long zero_state (repeat Byte.x01 201)
                    eq_refl)).
    reflexivity.
  - apply (proj2 (xorIn_panics_iff_too_long zero_state (repeat Byte.x01 208)
                    eq_refl)).
    reflexivity.
Defined.

Lemma xorIn_twice_witness :
  length zero_state = 200%nat /\ Go.len hello <= 200
  /\ (s <- xorIn zero_state hello ;; xorIn s hello) = Some zero_state.
Proof.
  assert (L : Go.len hello <= 200) by (vm_compute; discriminate).
  split; [reflexivity|]. split; [exact L|].
  exact (xorIn_twice zero_state hello eq_refl L).
Defined.

Lemma capacity_untouched_witness :
  length zero_state = 200%nat /\ Go.len hello <= rate /\ 0 <= 5 < rate
  /\ exists s2,
       (s1 <- xorIn zero_state hello ;; pad s1 5) = Some s2
       /\ skipn 136 s2 = skipn 136 zero_state.
Proof.
  assert (L : Go.len hello <= rate) by (vm_compute; discriminate).
  assert (R : 0 <= 5 < rate) by (split; [discriminate | reflexivity]).
  split; [reflexivity|]. split; [exact L|]. split; [exact R|].
  destruct (capacity_untouched zero_state hello 5 eq_refl L R)
    as (s2 & E & _ & C).
  exists s2. split; [exact E | exact C].
Defined.

Lemma padding_injective_witness :
  length zero_state = 200%nat /\ Go.len hello < rate
  /\ (s <- xorIn zero_state hello ;; pad s (Go.len hello))
     = (s <- xorIn zero_state hello ;; pad s (Go.len hello))
  /\ hello = hello.
Proof.
  assert (L : Go.len hello < rate) by reflexivity.
  split; [reflexivity|]. split; [exact L|]. split; [reflexivity|].
  exact (padding_injective zero_state hello hello eq_refl L L eq_refl).
Defined.

Lemma absorb_loop_leaves_tail_witness :
  length zero_state = 200%nat
  /\ exists state' tail,
       absorb_blocks (P := Keccak_f_1600) (length (repeat Byte.xff 141))
         zero_state (repeat Byte.xff 141) = Some (state', tail)
       /\ tail = skipn (141 - 141 mod 136) (repeat Byte.xff 141).
Proof.
  split; [reflexivity|].
  destruct (absorb_loop_leaves_tail (P := Keccak_f_1600) zero_state
              (repeat Byte.xff 141) eq_refl) as (st & t & E & _ & _ & T).
  exists st, t. split; [exact E | exact T].
Defined.

Lemma Sum256_whole_blocks_witness :
  Go.len (repeat Byte.xff 272) mod rate = 0
  /\ exists st,
       absorb_blocks (P := Keccak_f_1600) (length (repeat Byte.xff 272))
         zero_state (repeat Byte.xff 272) = Some (st, []).
Proof.
  split; [reflexivity|].
  destruct (Sum256_whole_blocks (P := Keccak_f_1600) (repeat Byte.xff 272)
              eq_refl) as (st & E & _).
  exists st. exact E.
Defined.

Lemma Write_pending_count_witness :
  Hasher.well_typed hasher_hello /\ Hasher.pending_ok hasher_hello
  /\ exists h',
       Hasher.Write (P := Keccak_f_1600) hasher_hello hello = Some h'
       /\ Hasher.absorbed h' = (5 + 5) mod rate.
Proof.
  assert (W : Hasher.well_typed hasher_hello) by (split; reflexivity).
  assert (I : Hasher.pending_ok hasher_hello)
    by (split; [discriminate | reflexivity]).
  split; [exact W|]. split; [exact I|].
  destruct (Write_pending_count (P := Keccak_f_1600) hasher_hello hello W I)
    as (h' & E & A & _).
  exists h'. split; [exact E | exact A].
Defined.

Lemma Write_whole_blocks_skips_buffer_witness :
  Hasher.well_typed (Hasher.Reset hasher_hello)
  /\ Hasher.absorbed (Hasher.Reset hasher_hello) = 0
  /\ Go.len (repeat Byte.xff 272) mod rate = 0
  /\ exists h',
       Hasher.Write (P := Keccak_f_1600) (Hasher.Reset hasher_hello)
         (repeat Byte.xff 272) = Some h'
       /\ Hasher.buf h' = hello ++ repeat Byte.x00 131.
Proof.
  assert (W : Hasher.well_typed (Hasher.Reset hasher_hello))
    by (split; reflexivity).
  split; [exact W|]. split; [reflexivity|]. split; [reflexivity|].
  destruct (Write_whole_blocks_skips_buffer (P := Keccak_f_1600)
              (Hasher.Reset hasher_hello) (repeat Byte.xff 272) W eq_refl
              eq_refl) as (h' & E & B & _).
  exists h'. split; [exact E | exact B].
Defined.

Lemma Write_splits_witness :
  Hasher.well_typed hasher_hello /\ Hasher.pending_ok hasher_hello
  /\ exists h1 h2 h12,
       Hasher.Write (P := Keccak_f_1600) hasher_hello hello = Some h1
       /\ Hasher.Write h1 (repeat Byte.xff 136) = Some h2
       /\ Hasher.Write hasher_hello (hello ++ repeat Byte.xff 136) = Some h12
       /\ Hasher.state h2 = Hasher.state h12.
Proof.
  assert (W : Hasher.well_typed hasher_hello) by (split; reflexivity).
  assert (I : Hasher.pending_ok hasher_hello)
    by (split; [discriminate | reflexivity]).
  split; [exact W|]. split; [exact I|].
  destruct (Write_splits (P := Keccak_f_1600) hasher_hello hello
              (repeat Byte.xff 136) W I)
    as (h1 & h2 & h12 & E1 & E2 & E12 & S & _).
  exists h1, h2, h12. auto.
Defined.

Lemma stale_buffer_bytes_ignored_witness :
  Hasher.well_typed (Hasher.Reset hasher_hello)
  /\ Hasher.pending_ok (Hasher.Reset hasher_hello)
  /\ Hasher.state (Hasher.Reset hasher_hello) = Hasher.state Hasher.zero
  /\ Hasher.pending (Hasher.Reset hasher_hello) = Hasher.pending Hasher.zero
  /\ exists ds k1 k2,
       Hasher.run (P := Keccak_f_1600) (Hasher.Reset hasher_hello)
         [Hasher.CallWrite hello; Hasher.CallSum256] = Some (ds, k1)
       /\ Hasher.run Hasher.zero [Hasher.CallWrite hello; Hasher.CallSum256]
          = Some (ds, k2).
Proof.
  assert (W : Hasher.well_typed (Hasher.Reset hasher_hello))
    by (split; reflexivity).
  assert (I : Hasher.pending_ok (Hasher.Reset hasher_hello))
    by (split; [discriminate | reflexivity]).
  assert (W0 : Hasher.well_typed Hasher.zero) by (split; reflexivity).
  assert (I0 : Hasher.pending_ok Hasher.zero)
    by (split; [discriminate | reflexivity]).
  split; [exact W|]. split; [exact I|]. split; [reflexivity|].
  split; [reflexivity|].
  exact (stale_buffer_bytes_ignored (P := Keccak_f_1600)
           (Hasher.Reset hasher_hello) Hasher.zero
           [Hasher.CallWrite hello; Hasher.CallSum256]
           W I W0 I0 eq_refl eq_refl).
Defined.

Lemma arm64_dispatch_irrelevant_witness :
  (forall a, length a = 200%nat ->
     @keccakF1600 Keccak_f_1600 a = @keccakF1600 Keccak_f_1600 a)
  /\ @Sum256 (arm64_core true Keccak_f_1600 Keccak_f_1600) hello
     = Some digest_hello.
Proof.
  assert (H : forall a, length a = 200%nat ->
            @keccakF1600 Keccak_f_1600 a = @keccakF1600 Keccak_f_1600 a)
    by (intros; reflexivity).
  split; [exact H|].
  rewrite (proj1 (arm64_dispatch_irrelevant true Keccak_f_1600 Keccak_f_1600 H)
             hello).
  vm_compute; reflexivity.
Defined.

Lemma le64_panics_iff_short_witness :
  (length hello < 8)%nat /\ le64 hello = None.
Proof.
  assert (L : (length hello < 8)%nat) by (cbn; lia).
  split; [exact L|].
  exact (proj2 (le64_panics_iff_short hello) L).
Defined.
